(** * libnih: timers (nih/timer.c) and child watches (nih/child.c)

    A shallow embedding of the two registries of libnih and of the
    operations that work on them, followed by the properties proved
    about them.

    Conventions of the embedding.
    - Pointers are integers, [NULL] is 0.  A heap block is identified by
      its address, stored in the record that models the block.
    - [pid_t] and [int] are modelled by [Z]; the two files only compare
      them and apply bit operations to them.
    - [time_t] is the signed 64-bit integer of the LP64 targets.  The
      sums the code forms of two times are taken modulo 2^64 into that
      range, which is what the compiled code computes (in C itself an
      overflowing signed addition is undefined): [time_add].
    - Each registry is the static pointer of its file: [None] before the
      lazy initialisation, [Some l] afterwards, where [l] lists the
      entries in list order (first entry after the head first).
    - What the outside world answers is an argument of the function that
      asks: the value of [time (NULL)], the block [nih_new] returned, the
      kernel's table of waitable children.
    - A callback or handler is foreign code: invoking it is recorded as an
      event, in order, with the arguments it is given.  What the callback
      itself does is outside both files and outside this model; it is
      taken to leave the list being traversed as it is.
    - The list and allocator primitives of libnih (nih/list.c,
      nih/alloc.c) and [nih_assert] (nih/logging.h) are not among the
      sources.  [NIH_LIST_FOREACH] and [NIH_LIST_FOREACH_SAFE] visit the
      entries in list order; [nih_list_free], and [nih_free] through the
      destructor [nih_list_destroy], unlink the entry they are given;
      [nih_new] returns a block or [NULL]; a failing [nih_assert] aborts
      the process: [Aborted]. *)

From Stdlib Require Import ZArith List Bool Lia.
Import ListNotations.
Open Scope Z_scope.

Definition ptr := Z.
Definition NULL : ptr := 0.
Definition time_t := Z.
Definition pid_t := Z.

(** The range of [time_t]: -2^63 .. 2^63 - 1. *)
Definition TIME_MIN : time_t := -9223372036854775808.
Definition TIME_MAX : time_t := 9223372036854775807.

(** The integer [x] brought into the range of [time_t] modulo 2^64. *)
Definition time_wrap (x : Z) : time_t :=
  (x + 9223372036854775808) mod 18446744073709551616 - 9223372036854775808.

(** [a + b] on two [time_t]. *)
Definition time_add (a b : time_t) : time_t := time_wrap (a + b).

(** The integer [x] is a value of [time_t]: a sum that is one has not
    overflowed. *)
Definition fits_time (x : Z) : Prop := TIME_MIN <= x <= TIME_MAX.

(** Result of a call that may hit a failing [nih_assert]. *)
Inductive Outcome (A : Type) : Type :=
| Aborted : Outcome A
| Returned : A -> Outcome A.
Arguments Aborted {A}.
Arguments Returned {A} _.

(** Modelled from the spec: [nih_list_add] of nih/list.c (the intrusive
    list is an external collaborator).  Adding an entry to the list head
    links it before the head, that is, last in iteration order. *)
Definition nih_list_add {A : Type} (head : list A) (entry : A) : list A :=
  head ++ [entry].

(* ------------------------------------------------------------------ *)
(** ** nih/timer.c *)

Module Timer.

(** Modelled from the spec: [NihTimerSchedule] is declared in timer.h,
    which is not among the sources; the schedule is stored verbatim and
    never inspected, so its contents stay opaque. *)
Inductive NihTimerSchedule : Type :=
| Schedule (pattern : Z).

(** The [type] tag of a timer together with the member of the union it
    selects ([timeout], [period] or [schedule]). *)
Inductive NihTimerKind : Type :=
| NIH_TIMER_TIMEOUT (timeout : time_t)
| NIH_TIMER_PERIODIC (period : time_t)
| NIH_TIMER_SCHEDULED (schedule : NihTimerSchedule).

Record NihTimer : Type := mkTimer {
  addr : ptr;            (* address of the block, [(NihTimer * )iter] *)
  due : time_t;
  kind : NihTimerKind;   (* type + union *)
  callback : ptr;
  data : ptr
}.

(** [static NihList *timers = NULL;] *)
Definition Registry := option (list NihTimer).

(** The entries linked in the list; none while the list does not exist. *)
Definition entries (timers : Registry) : list NihTimer :=
  match timers with
  | None => []
  | Some l => l
  end.

(** [nih_timer_init]: [NIH_MUST] repeats the allocation until it
    succeeds, so the list exists afterwards. *)
Definition nih_timer_init (timers : Registry) : Registry :=
  match timers with
  | None => Some []
  | Some l => Some l
  end.

(** [nih_timer_add_timeout (callback, data, timeout)].  [now] is the value
    of [time (NULL)], [block] what [nih_new (timers, NihTimer)] returned. *)
Definition nih_timer_add_timeout (callback data : ptr) (timeout : time_t)
    (now : time_t) (block : ptr) (timers : Registry)
    : Outcome (ptr * Registry) :=
  if callback =? NULL then Aborted
  else
    let timers := nih_timer_init timers in
    let timer := block in
    if timer =? NULL then Returned (NULL, timers)
    else
      Returned (timer,
        Some (nih_list_add (entries timers)
                {| addr := timer;
                   due := time_add now timeout;
                   kind := NIH_TIMER_TIMEOUT timeout;
                   callback := callback;
                   data := data |})).

(** [nih_timer_add_periodic (callback, data, period)]. *)
Definition nih_timer_add_periodic (callback data : ptr) (period : time_t)
    (now : time_t) (block : ptr) (timers : Registry)
    : Outcome (ptr * Registry) :=
  if callback =? NULL then Aborted
  else if negb (period >? 0) then Aborted
  else
    let timers := nih_timer_init timers in
    let timer := block in
    if timer =? NULL then Returned (NULL, timers)
    else
      Returned (timer,
        Some (nih_list_add (entries timers)
                {| addr := timer;
                   due := time_add now period;
                   kind := NIH_TIMER_PERIODIC period;
                   callback := callback;
                   data := data |})).

(** [nih_timer_add_scheduled (callback, data, schedule)].  The schedule is
    passed by pointer: [None] is the null pointer, [Some s] a pointer to
    a schedule holding [s], which [memcpy] copies into the timer. *)
Definition nih_timer_add_scheduled (callback data : ptr)
    (schedule : option NihTimerSchedule)
    (block : ptr) (timers : Registry)
    : Outcome (ptr * Registry) :=
  if callback =? NULL then Aborted
  else
    match schedule with
    | None => Aborted
    | Some s =>
        let timers := nih_timer_init timers in
        let timer := block in
        if timer =? NULL then Returned (NULL, timers)
        else
          Returned (timer,
            Some (nih_list_add (entries timers)
                    {| addr := timer;
                       due := 0;      (* FIXME Not implemented *)
                       kind := NIH_TIMER_SCHEDULED s;
                       callback := callback;
                       data := data |}))
    end.

(** The body of the [NIH_LIST_FOREACH] of [nih_timer_next_due], [next]
    being the candidate so far. *)
Fixpoint next_due_loop (next : option NihTimer) (l : list NihTimer)
    : option NihTimer :=
  match l with
  | [] => next
  | timer :: rest =>
      let next :=
        match next with
        | None => Some timer
        | Some n => if due timer <? due n then Some timer else Some n
        end in
      next_due_loop next rest
  end.

(** [nih_timer_next_due ()]: the timer returned, [None] for [NULL],
    beside the registry (which the call may have initialised). *)
Definition nih_timer_next_due (timers : Registry)
    : Registry * option NihTimer :=
  let timers := nih_timer_init timers in
  (timers, next_due_loop None (entries timers)).

(** One invocation [timer->callback (timer->data, timer)], with the timer
    as it was when called. *)
Record Call : Type := mkCall {
  c_callback : ptr;
  c_data : ptr;
  c_timer : NihTimer
}.

Definition invoke (timer : NihTimer) : Call :=
  {| c_callback := callback timer; c_data := data timer; c_timer := timer |}.

Definition set_due (timer : NihTimer) (d : time_t) : NihTimer :=
  {| addr := addr timer; due := d; kind := kind timer;
     callback := callback timer; data := data timer |}.

(** The [NIH_LIST_FOREACH_SAFE] of [nih_timer_poll]: the entries left in
    the list and the callbacks invoked, in order.  [nih_list_free] unlinks
    and frees the entry. *)
Fixpoint poll_loop (now : time_t) (l : list NihTimer)
    : list NihTimer * list Call :=
  match l with
  | [] => ([], [])
  | timer :: rest =>
      if due timer >? now then
        let (rest', calls) := poll_loop now rest in
        (timer :: rest', calls)
      else
        let call := invoke timer in
        let kept :=
          match kind timer with
          | NIH_TIMER_TIMEOUT _ => []
          | NIH_TIMER_PERIODIC period => [set_due timer (time_add now period)]
          | NIH_TIMER_SCHEDULED _ => [set_due timer 0]
          end in
        let (rest', calls) := poll_loop now rest in
        (kept ++ rest', call :: calls)
  end.

(** [nih_timer_poll ()], [now] being the value of [time (NULL)]. *)
Definition nih_timer_poll (now : time_t) (timers : Registry)
    : Registry * list Call :=
  let timers := nih_timer_init timers in
  let (l, calls) := poll_loop now (entries timers) in
  (Some l, calls).

(** The event loop calling [nih_timer_poll] again and again, at the given
    times: the registry in the end and every callback invoked. *)
Fixpoint poll_sequence (times : list time_t) (timers : Registry)
    : Registry * list Call :=
  match times with
  | [] => (timers, [])
  | now :: later =>
      let (timers1, calls1) := nih_timer_poll now timers in
      let (timers2, calls2) := poll_sequence later timers1 in
      (timers2, calls1 ++ calls2)
  end.

(** For the proofs: what [nih_timer_poll] leaves of one timer at time [now]. *)
Definition polled (now : time_t) (timer : NihTimer) : list NihTimer :=
  if due timer >? now then [timer]
  else match kind timer with
       | NIH_TIMER_TIMEOUT _ => []
       | NIH_TIMER_PERIODIC period => [set_due timer (time_add now period)]
       | NIH_TIMER_SCHEDULED _ => [set_due timer 0]
       end.

(** *** Vocabulary of further statements *)

(** The call is made for the timer at address [a]. *)
Definition called_at (a : ptr) (c : Call) : bool :=
  addr (c_timer c) =? a.

Definition is_scheduled (t : NihTimer) : bool :=
  match kind t with
  | NIH_TIMER_SCHEDULED _ => true
  | _ => false
  end.

(** A Timeout that a poll at time [now] fires, and so unlinks. *)
Definition due_timeout (now : time_t) (t : NihTimer) : bool :=
  match kind t with
  | NIH_TIMER_TIMEOUT _ => due t <=? now
  | _ => false
  end.

(** A period as [nih_timer_add_periodic] admits it. *)
Definition period_positive (t : NihTimer) : Prop :=
  forall p, kind t = NIH_TIMER_PERIODIC p -> 0 < p.

(** At time [now] the period can be added without overflow. *)
Definition period_fits (now : time_t) (t : NihTimer) : Prop :=
  forall p, kind t = NIH_TIMER_PERIODIC p -> fits_time (now + p).

(** The due time of the timer [nih_timer_next_due] returns. *)
Definition reported (timers : Registry) : option time_t :=
  option_map due (snd (nih_timer_next_due timers)).

(** The earlier of a reported due time, if any, and [d]. *)
Definition earlier_of (m : option time_t) (d : time_t) : time_t :=
  match m with
  | None => d
  | Some m => Z.min m d
  end.

End Timer.

(* ------------------------------------------------------------------ *)
(** ** nih/child.c *)

Module Child.

(** [si_code] values of a SIGCHLD [siginfo_t] and the number of SIGTRAP,
    as Linux's <signal.h> defines them (system headers). *)
Definition CLD_EXITED : Z := 1.
Definition CLD_KILLED : Z := 2.
Definition CLD_DUMPED : Z := 3.
Definition CLD_TRAPPED : Z := 4.
Definition CLD_STOPPED : Z := 5.
Definition CLD_CONTINUED : Z := 6.
Definition SIGTRAP : Z := 5.

(** The fields of [siginfo_t] that [waitid] fills in and the poll reads. *)
Record siginfo_t : Type := mkInfo {
  si_pid : pid_t;
  si_code : Z;
  si_status : Z
}.

(** [memset (&info, 0, sizeof (info))] *)
Definition zero_info : siginfo_t :=
  {| si_pid := 0; si_code := 0; si_status := 0 |}.

(** The kinds of event a watch can ask for. *)
Inductive NihChildEvents : Type :=
| NIH_CHILD_EXITED
| NIH_CHILD_KILLED
| NIH_CHILD_DUMPED
| NIH_CHILD_STOPPED
| NIH_CHILD_CONTINUED
| NIH_CHILD_TRAPPED
| NIH_CHILD_PTRACE.

(** Modelled from the spec: the [NihChildEvents] enumeration is declared
    in child.h, which is not among the sources; [events] is a bitmask of
    subscribed kinds, so each kind is one bit of its own. *)
Definition event_bits (event : NihChildEvents) : Z :=
  match event with
  | NIH_CHILD_EXITED => 1
  | NIH_CHILD_KILLED => 2
  | NIH_CHILD_DUMPED => 4
  | NIH_CHILD_STOPPED => 8
  | NIH_CHILD_CONTINUED => 16
  | NIH_CHILD_TRAPPED => 32
  | NIH_CHILD_PTRACE => 64
  end.

Record NihChildWatch : Type := mkWatch {
  addr : ptr;       (* address of the block, [(NihChildWatch * )iter] *)
  pid : pid_t;      (* process id, or -1 for every child *)
  events : Z;       (* mask of [event_bits] *)
  handler : ptr;
  data : ptr
}.

(** [static NihList *child_watches = NULL;] *)
Definition Registry := option (list NihChildWatch).

Definition entries (child_watches : Registry) : list NihChildWatch :=
  match child_watches with
  | None => []
  | Some l => l
  end.

(** [nih_child_init] *)
Definition nih_child_init (child_watches : Registry) : Registry :=
  match child_watches with
  | None => Some []
  | Some l => Some l
  end.

(** [nih_child_add_watch (parent, pid, events, handler, data)]; [block]
    is what [nih_new (parent, NihChildWatch)] returned. *)
Definition nih_child_add_watch (parent : ptr) (pid : pid_t) (events : Z)
    (handler data : ptr) (block : ptr) (child_watches : Registry)
    : Outcome (ptr * Registry) :=
  if pid =? 0 then Aborted
  else if handler =? NULL then Aborted
  else
    let child_watches := nih_child_init child_watches in
    let watch := block in
    if watch =? NULL then Returned (NULL, child_watches)
    else
      Returned (watch,
        Some (nih_list_add (entries child_watches)
                {| addr := watch;
                   pid := pid;
                   events := events;
                   handler := handler;
                   data := data |})).

(** The kernel's side of [waitid]: the state changes of children that
    wait to be collected, in the order the kernel reports them, and
    whether the kernel answers ECHILD once nothing is left to report. *)
Record Kernel : Type := mkKernel {
  pending : list siginfo_t;
  echild : bool
}.

(** Modelled from the spec: [waitid (P_ALL, 0, &info, WAITOPTS | WNOHANG |
    WNOWAIT)], the non-consuming query of the next pending transition of
    any child.  It returns 0 and describes the transition; with nothing
    pending it leaves [info] as it was and returns 0, or -1 when the
    process has no child. *)
Definition waitid_peek (k : Kernel) (info : siginfo_t) : Z * siginfo_t :=
  match pending k with
  | i :: _ => (0, i)
  | [] => if echild k then (-1, info) else (0, info)
  end.

Fixpoint remove_first (pid : pid_t) (q : list siginfo_t) : list siginfo_t :=
  match q with
  | [] => []
  | i :: q' => if si_pid i =? pid then q' else i :: remove_first pid q'
  end.

(** Modelled from the spec: [waitid (P_PID, pid, &info, WAITOPTS)], the
    consuming wait for one process: its reported transition is gone from
    the kernel afterwards. *)
Definition waitid_reap (pid : pid_t) (k : Kernel) : Kernel :=
  {| pending := remove_first pid (pending k); echild := echild k |}.

(** The [switch (info.si_code)] of [nih_child_poll]: the event, the
    status and [free_watch]; [None] where [nih_assert_not_reached] is
    hit. *)
Definition decode (info : siginfo_t) : option (NihChildEvents * Z * bool) :=
  let code := si_code info in
  if code =? CLD_EXITED then Some (NIH_CHILD_EXITED, si_status info, true)
  else if code =? CLD_KILLED then Some (NIH_CHILD_KILLED, si_status info, true)
  else if code =? CLD_DUMPED then Some (NIH_CHILD_DUMPED, si_status info, true)
  else if code =? CLD_TRAPPED then
    if (Z.land (si_status info) 127 =? SIGTRAP)
       && negb (Z.land (si_status info) (Z.lnot 127) =? 0)
    then Some (NIH_CHILD_PTRACE, Z.shiftr (si_status info) 8, false)
    else Some (NIH_CHILD_TRAPPED, si_status info, false)
  else if code =? CLD_STOPPED then Some (NIH_CHILD_STOPPED, si_status info, false)
  else if code =? CLD_CONTINUED then
    Some (NIH_CHILD_CONTINUED, si_status info, false)
  else None.

(** What [nih_child_poll] does, in order. *)
Inductive Event : Type :=
| EvPeek (ret : Z) (info : siginfo_t)
    (* waitid (P_ALL, ..., WNOHANG | WNOWAIT) and its answer *)
| EvHandler (watch : NihChildWatch) (pid : pid_t)
    (event : NihChildEvents) (status : Z)
    (* watch->handler (watch->data, pid, event, status) *)
| EvReap (pid : pid_t).
    (* waitid (P_PID, pid, &info, WAITOPTS) *)

(** The [NIH_LIST_FOREACH_SAFE] of [nih_child_poll] for one transition:
    the watches left in the list and the handlers invoked, in order.
    [nih_free (watch)] runs the destructor [nih_list_destroy], which
    unlinks the watch. *)
Fixpoint dispatch (pid : pid_t) (event : NihChildEvents) (status : Z)
    (free_watch : bool) (l : list NihChildWatch)
    : list NihChildWatch * list Event :=
  match l with
  | [] => ([], [])
  | watch :: rest =>
      let (rest', evs) := dispatch pid event status free_watch rest in
      if negb (Child.pid watch =? pid) && negb (Child.pid watch =? -1) then
        (watch :: rest', evs)
      else if Z.land (events watch) (event_bits event) =? 0 then
        (watch :: rest', evs)
      else
        let ev := EvHandler watch pid event status in
        if free_watch && negb (Child.pid watch =? -1) then
          (rest', ev :: evs)
        else
          (watch :: rest', ev :: evs)
  end.

(** Running out of [fuel] is not a behaviour of the code: it only marks
    an unrolling of the [while] that was cut short. *)
Inductive Run (A : Type) : Type :=
| OutOfFuel : Run A
| Finished : Outcome A -> Run A.
Arguments OutOfFuel {A}.
Arguments Finished {A} _.

Definition State : Type := Kernel * list NihChildWatch * list Event.

(** [evs] happened, then what [r] says. *)
Definition after (evs : list Event) (r : Run State) : Run State :=
  match r with
  | Finished (Returned (k, l, evs')) => Finished (Returned (k, l, evs ++ evs'))
  | other => other
  end.

(** The [while] loop of [nih_child_poll], unrolled at most [fuel] times;
    [info] is zeroed before every [waitid]. *)
Fixpoint poll_loop (fuel : nat) (k : Kernel) (l : list NihChildWatch)
    : Run State :=
  match fuel with
  | O => OutOfFuel
  | S fuel' =>
      let (ret, info) := waitid_peek k zero_info in
      if negb (ret =? 0) then Finished (Returned (k, l, [EvPeek ret info]))
      else
        let pid := si_pid info in
        if pid =? 0 then Finished (Returned (k, l, [EvPeek ret info]))
        else
          match decode info with
          | None => Finished Aborted
          | Some (event, status, free_watch) =>
              let (l', evs) := dispatch pid event status free_watch l in
              let k' := waitid_reap pid k in
              after (EvPeek ret info :: evs ++ [EvReap pid])
                    (poll_loop fuel' k' l')
          end
  end.

(** [nih_child_poll ()] against the kernel state [k].  Each turn of the
    loop collects one pending transition, so one more turn than there are
    pending transitions is all the loop can take. *)
Definition nih_child_poll (k : Kernel) (child_watches : Registry)
    : Run (Kernel * Registry * list Event) :=
  let child_watches := nih_child_init child_watches in
  match poll_loop (S (length (pending k))) k (entries child_watches) with
  | OutOfFuel => OutOfFuel
  | Finished Aborted => Finished Aborted
  | Finished (Returned (k', l, evs)) => Finished (Returned (k', Some l, evs))
  end.

(** The event loop calling [nih_child_poll] again and again, each time
    against what the kernel then holds: the registry in the end and
    everything the polls did. *)
Fixpoint poll_sequence (ks : list Kernel) (child_watches : Registry)
    : Run (Registry * list Event) :=
  match ks with
  | [] => Finished (Returned (child_watches, []))
  | k :: later =>
      match nih_child_poll k child_watches with
      | OutOfFuel => OutOfFuel
      | Finished Aborted => Finished Aborted
      | Finished (Returned (_, child_watches1, evs1)) =>
          match poll_sequence later child_watches1 with
          | Finished (Returned (child_watches2, evs2)) =>
              Finished (Returned (child_watches2, evs1 ++ evs2))
          | other => other
          end
      end
  end.

(** *** Vocabulary of the statements *)

(** Exited, Killed and Dumped end the process. *)
Definition terminal (event : NihChildEvents) : bool :=
  match event with
  | NIH_CHILD_EXITED | NIH_CHILD_KILLED | NIH_CHILD_DUMPED => true
  | _ => false
  end.

(** The watch is for this process, or for every process, and its mask
    includes the event. *)
Definition interested (w : NihChildWatch) (pid : pid_t)
    (event : NihChildEvents) : Prop :=
  (Child.pid w = pid \/ Child.pid w = -1) /\
  Z.land (events w) (event_bits event) <> 0.

Definition interestedb (pid : pid_t) (event : NihChildEvents)
    (w : NihChildWatch) : bool :=
  ((Child.pid w =? pid) || (Child.pid w =? -1))
  && negb (Z.land (events w) (event_bits event) =? 0).

(** The handler of the watch at address [a] is invoked for a terminal
    event. *)
Definition terminal_call_at (a : ptr) (ev : Event) : bool :=
  match ev with
  | EvHandler w _ e _ => (addr w =? a) && terminal e
  | _ => false
  end.

(** Among [evs], a watch for one process is invoked for a terminal
    event. *)
Definition released (w : NihChildWatch) (evs : list Event) : Prop :=
  Child.pid w <> -1 /\
  exists p e s, In (EvHandler w p e s) evs /\ terminal e = true.

(** A pending transition the poll can handle. *)
Definition reportable (i : siginfo_t) : Prop :=
  si_pid i <> 0 /\ decode i <> None.

(** One turn of the loop on the transition [i]: the peek that detects
    it, the handlers, the reap. *)
Definition round_events (i : siginfo_t) (handlers : list Event)
    : list Event :=
  EvPeek 0 i :: handlers ++ [EvReap (si_pid i)].

(** The runs of the loop that return, turn by turn: from the pending
    transitions and the watch list, the events, and what is left of
    both. *)
Inductive drains : list siginfo_t -> list NihChildWatch -> list Event ->
                   list siginfo_t -> list NihChildWatch -> Prop :=
| drains_none (l : list NihChildWatch) (ret : Z) :
    drains [] l [EvPeek ret zero_info] [] l
| drains_zero (i : siginfo_t) (q : list siginfo_t) (l : list NihChildWatch) :
    si_pid i = 0 ->
    drains (i :: q) l [EvPeek 0 i] (i :: q) l
| drains_round (i : siginfo_t) (q : list siginfo_t) (l : list NihChildWatch)
    (e : NihChildEvents) (s : Z) (fw : bool)
    (evs : list Event) (q' : list siginfo_t) (l' : list NihChildWatch) :
    si_pid i <> 0 ->
    decode i = Some (e, s, fw) ->
    drains q (fst (dispatch (si_pid i) e s fw l)) evs q' l' ->
    drains (i :: q) l
           (round_events i (snd (dispatch (si_pid i) e s fw l)) ++ evs)
           q' l'.

(** What polling may do to the watch list [l], leaving [l'] and the
    events [evs]: a watch is gone exactly when it was released; only
    listed, interested watches are invoked; and, no block being listed
    twice, none is afterwards, and a watch for one process gets at most
    one terminal event. *)
Definition orderly (l : list NihChildWatch) (evs : list Event)
    (l' : list NihChildWatch) : Prop :=
  (forall w, In w l' <-> In w l /\ ~ released w evs) /\
  (forall w p e s, In (EvHandler w p e s) evs -> In w l /\ interested w p e) /\
  (NoDup (map addr l) ->
   NoDup (map addr l') /\
   forall w, In w l -> Child.pid w <> -1 ->
     (length (filter (terminal_call_at (addr w)) evs) <= 1)%nat).

(** *** Vocabulary of further statements *)

(** The event is a call of the handler of the watch at address [a]. *)
Definition handler_at (a : ptr) (ev : Event) : bool :=
  match ev with
  | EvHandler w _ _ _ => addr w =? a
  | _ => false
  end.

(** The handler call the transition [i] is worth to the watch [w]: one
    call with what [i] decodes to if [w] is for that pid, or for all,
    and asks for that event; none otherwise. *)
Definition notification (w : NihChildWatch) (i : siginfo_t) : list Event :=
  match decode i with
  | Some (e, s, _) =>
      if interestedb (si_pid i) e w then [EvHandler w (si_pid i) e s] else []
  | None => []
  end.

(** The transition [i] has the poll free the watch [w]: [w] is invoked
    for it, [free_watch] is set, and [w] is no wildcard. *)
Definition releases (w : NihChildWatch) (i : siginfo_t) : bool :=
  match decode i with
  | Some (e, _, fw) =>
      interestedb (si_pid i) e w && (fw && negb (Child.pid w =? -1))
  | None => false
  end.

(** The transitions of [q] up to, and with, the first that releases
    [w]. *)
Fixpoint until_released (w : NihChildWatch) (q : list siginfo_t)
    : list siginfo_t :=
  match q with
  | [] => []
  | i :: q' => if releases w i then [i] else i :: until_released w q'
  end.

(** What a poll does to drain the transitions [q], the watches [l]
    being listed: a turn for each transition in order, made of the peek
    that detects it, one handler call for every listed watch that asks
    for it, in list order, and the reap; the watches a transition
    releases are not listed in the turns after it. *)
Fixpoint turns (q : list siginfo_t) (l : list NihChildWatch)
    : list Event :=
  match q with
  | [] => []
  | i :: q' =>
      round_events i (flat_map (fun w => notification w i) l)
      ++ turns q' (filter (fun w => negb (releases w i)) l)
  end.

End Child.

(* ------------------------------------------------------------------ *)
(** ** Vocabulary shared by the add operations *)

(** The contract of an add operation, [res] being its outcome on the
    registry [before] when the allocator hands out [block]: a violated
    contract aborts; otherwise the call returns the block, and when that
    is [NULL] the registry holds the entries it held (the list itself
    has been created if it was not), while otherwise one entry is added
    to the list. *)
Definition fails_only_on_exhaustion {R E : Type}
    (entries : R -> list E) (init : R -> R)
    (violation : Prop) (block : ptr) (before : R)
    (res : Outcome (ptr * R)) : Prop :=
  (violation -> res = Aborted) /\
  (~ violation ->
   exists after, res = Returned (block, after) /\
     (block = NULL -> after = init before /\ entries after = entries before) /\
     (block <> NULL ->
      exists entry, entries after = nih_list_add (entries before) entry)).

(* ------------------------------------------------------------------ *)
(** ** Properties of the timer registry *)

Section TimerFacts.
Import Timer.

(** A sum that is a value of [time_t] is what the addition gives. *)
Lemma time_add_fits (a b : time_t) :
  fits_time (a + b) -> time_add a b = a + b.
Proof.
  unfold fits_time, TIME_MIN, TIME_MAX, time_add, time_wrap. intros H.
  rewrite Z.mod_small; lia.
Qed.

Lemma poll_loop_entries (now : time_t) (l : list NihTimer) :
  fst (poll_loop now l) = flat_map (polled now) l.
Proof.
  induction l as [|timer rest IH]; simpl; [reflexivity|].
  unfold polled at 1.
  destruct (poll_loop now rest) as [rest' calls]; simpl in IH; subst rest'.
  destruct (due timer >? now); reflexivity.
Qed.

Lemma poll_loop_calls (now : time_t) (l : list NihTimer) :
  snd (poll_loop now l) = map invoke (filter (fun t => due t <=? now) l).
Proof.
  induction l as [|timer rest IH]; simpl; [reflexivity|].
  destruct (poll_loop now rest) as [rest' calls]; simpl in IH; subst calls.
  rewrite Z.gtb_ltb.
  destruct (Z.ltb_spec now (due timer)), (Z.leb_spec (due timer) now);
    try lia; reflexivity.
Qed.

Lemma poll_entries (now : time_t) (timers : Registry) :
  entries (fst (nih_timer_poll now timers))
  = flat_map (polled now) (entries timers).
Proof.
  unfold nih_timer_poll.
  rewrite <- poll_loop_entries.
  destruct timers as [l|]; simpl;
    [destruct (poll_loop now l)|destruct (poll_loop now [])]; reflexivity.
Qed.

Lemma poll_calls (now : time_t) (timers : Registry) :
  snd (nih_timer_poll now timers)
  = map invoke (filter (fun t => due t <=? now) (entries timers)).
Proof.
  unfold nih_timer_poll.
  rewrite <- poll_loop_calls.
  destruct timers as [l|]; simpl;
    [destruct (poll_loop now l)|destruct (poll_loop now [])]; reflexivity.
Qed.

Lemma invoke_inj (t t' : NihTimer) : invoke t = invoke t' -> t = t'.
Proof. intros H. injection H. auto. Qed.

(** A callback is invoked by a poll exactly for the listed timers that
    are due. *)
Lemma poll_fires_iff (now : time_t) (timers : Registry) (t : NihTimer) :
  In (invoke t) (snd (nih_timer_poll now timers))
  <-> In t (entries timers) /\ due t <= now.
Proof.
  rewrite poll_calls, in_map_iff. split.
  - intros [t' [E H]]. apply invoke_inj in E. subst t'.
    apply filter_In in H. destruct H as [H1 H2]. split; [assumption|].
    apply Z.leb_le; assumption.
  - intros [H1 H2]. exists t. split; [reflexivity|].
    apply filter_In. split; [assumption|]. apply Z.leb_le; assumption.
Qed.

Lemma poll_sequence_cons (now : time_t) (later : list time_t)
    (timers : Registry) :
  poll_sequence (now :: later) timers
  = (fst (poll_sequence later (fst (nih_timer_poll now timers))),
     snd (nih_timer_poll now timers)
     ++ snd (poll_sequence later (fst (nih_timer_poll now timers)))).
Proof.
  simpl. destruct (nih_timer_poll now timers) as [r1 c1]. simpl.
  destruct (poll_sequence later r1); reflexivity.
Qed.

(** Polling hands out no new address. *)
Lemma polled_addr (now : time_t) (t t' : NihTimer) :
  In t' (polled now t) -> addr t' = addr t.
Proof.
  unfold polled.
  destruct (due t >? now); [intros [<-|[]]; reflexivity|].
  destruct (kind t); simpl; intros H;
    [contradiction | destruct H as [<-|[]] | destruct H as [<-|[]]];
    reflexivity.
Qed.

(** The scan of [nih_timer_next_due] started with the candidate [n]. *)
Lemma next_due_loop_candidate (l : list NihTimer) :
  forall n : NihTimer,
  exists m, next_due_loop (Some n) l = Some m /\
    ((m = n /\ forall t, In t l -> due n <= due t) \/
     (exists before after, l = before ++ m :: after /\ due m < due n /\
        (forall t, In t before -> due m < due t) /\
        (forall t, In t after -> due m <= due t))).
Proof.
  induction l as [|t rest IH]; intros n; simpl.
  - exists n. split; [reflexivity|]. left. split; [reflexivity|]. intros t [].
  - destruct (Z.ltb_spec (due t) (due n)) as [Hlt|Hge].
    + destruct (IH t) as [m [Hm [[Em Hall]|[b [a [El [H1 [H2 H3]]]]]]]];
        exists m; (split; [assumption|]); right.
      * subst m. exists [], rest. repeat split; try assumption. intros x [].
      * subst rest. exists (t :: b), a. repeat split; try assumption; [lia|].
        intros x [<-|Hx]; [assumption|apply H2; assumption].
    + destruct (IH n) as [m [Hm [[Em Hall]|[b [a [El [H1 [H2 H3]]]]]]]];
        exists m; (split; [assumption|]).
      * subst m. left. split; [reflexivity|].
        intros x [<-|Hx]; [assumption|apply Hall; assumption].
      * subst rest. right. exists (t :: b), a. repeat split; try assumption.
        intros x [<-|Hx]; [lia|apply H2; assumption].
Qed.

Lemma next_due_loop_first_minimum (t : NihTimer) (rest : list NihTimer) :
  exists before next after,
    t :: rest = before ++ next :: after /\
    next_due_loop None (t :: rest) = Some next /\
    (forall x, In x before -> due next < due x) /\
    (forall x, In x after -> due next <= due x).
Proof.
  simpl.
  destruct (next_due_loop_candidate rest t)
    as [m [Hm [[Em Hall]|[b [a [El [H1 [H2 H3]]]]]]]].
  - subst m. exists [], t, rest. repeat split; try assumption. intros x [].
  - subst rest. exists (t :: b), m, a. repeat split; try assumption.
    intros x [<-|Hx]; [assumption|apply H2; assumption].
Qed.

End TimerFacts.

Section TimerClaims.
Import Timer.

(** What [nih_timer_next_due] returns, for the proofs below. *)
Lemma next_due_scan (timers : Registry) :
  entries (fst (nih_timer_next_due timers)) = entries timers /\
  (entries timers = [] -> snd (nih_timer_next_due timers) = None) /\
  (entries timers <> [] ->
   exists before next after,
     entries timers = before ++ next :: after /\
     snd (nih_timer_next_due timers) = Some next /\
     (forall x, In x before -> due next < due x) /\
     (forall x, In x after -> due next <= due x)).
Proof.
  unfold nih_timer_next_due.
  assert (E : entries (nih_timer_init timers) = entries timers)
    by (destruct timers; reflexivity).
  simpl. rewrite E. split; [reflexivity|]. split.
  - intros ->. reflexivity.
  - destruct (entries timers) as [|t rest]; [congruence|]. intros _.
    destruct (next_due_loop_first_minimum t rest)
      as [before [next [after H]]].
    exists before, next, after. exact H.
Qed.

(** C6.  [nih_timer_next_due] leaves the entries as they are; over an
    empty registry it returns [NULL]; over any other it returns the first
    timer, in list order, whose due time is the smallest: every timer
    before it is due strictly later, every timer after it no earlier.
    The registry is arbitrary, so this is so after any add, removal or
    fire. *)
Theorem next_due_is_first_minimum (timers : Registry) :
  entries (fst (nih_timer_next_due timers)) = entries timers /\
  (entries timers = [] -> snd (nih_timer_next_due timers) = None) /\
  (entries timers <> [] ->
   exists before next after,
     entries timers = before ++ next :: after /\
     snd (nih_timer_next_due timers) = Some next /\
     (forall x, In x before -> due next < due x) /\
     (forall x, In x after -> due next <= due x)).
Proof. exact (next_due_scan timers). Qed.

Lemma set_due_same (t : NihTimer) : set_due t (due t) = t.
Proof. destruct t; reflexivity. Qed.

Lemma in_entries_polled (now : time_t) (timers : Registry) (t t' : NihTimer) :
  In t (entries timers) -> In t' (polled now t) ->
  In t' (entries (fst (nih_timer_poll now timers))).
Proof.
  intros H H'. rewrite poll_entries. apply in_flat_map. exists t. auto.
Qed.

(** A Scheduled timer whose due time is 0 is left as it is by a poll. *)
Lemma scheduled_polled (now : time_t) (t : NihTimer) (s : NihTimerSchedule) :
  kind t = NIH_TIMER_SCHEDULED s -> due t = 0 -> polled now t = [t].
Proof.
  intros K D. unfold polled. rewrite K.
  destruct (due t >? now); [reflexivity|].
  rewrite <- D. rewrite set_due_same. reflexivity.
Qed.

Lemma scheduled_survives (times : list time_t) :
  forall (timers : Registry) (t : NihTimer) (s : NihTimerSchedule),
  kind t = NIH_TIMER_SCHEDULED s -> due t = 0 -> In t (entries timers) ->
  In t (entries (fst (poll_sequence times timers))).
Proof.
  induction times as [|now later IH]; intros timers t s K D H.
  - exact H.
  - rewrite poll_sequence_cons. simpl. apply (IH _ t s K D).
    apply (in_entries_polled now timers t t H).
    rewrite (scheduled_polled now t s K D). left. reflexivity.
Qed.

(** How far the unfinished Scheduled timers go (timer.c marks both
    places FIXME).  The timer that [nih_timer_add_scheduled] registers is
    due at 0.  Whatever polls follow, it is still in the registry,
    unchanged; and a poll at time [now] invokes its callback exactly when
    [0 <= now]: at every poll, the clock being past 1970, and not, as
    the function is documented, based on the schedule. *)
Theorem scheduled_timer_fires_at_every_poll
    (callback data : ptr) (s : NihTimerSchedule) (block : ptr)
    (timers timers' : Registry) (times : list time_t) :
  nih_timer_add_scheduled callback data (Some s) block timers
    = Returned (block, timers') ->
  block <> NULL ->
  let t := {| addr := block; due := 0; kind := NIH_TIMER_SCHEDULED s;
              callback := callback; data := data |} in
  let later := fst (poll_sequence times timers') in
  In t (entries timers') /\
  In t (entries later) /\
  forall now, In (invoke t) (snd (nih_timer_poll now later)) <-> 0 <= now.
Proof.
  intros Hadd Hblock t later.
  assert (Hin : In t (entries timers')).
  { unfold nih_timer_add_scheduled in Hadd.
    destruct (callback =? NULL); [discriminate|].
    destruct (Z.eqb_spec block NULL) as [|_]; [contradiction|].
    injection Hadd as <-. simpl. unfold nih_list_add.
    apply in_or_app. right. left. reflexivity. }
  assert (Hlater : In t (entries later)).
  { apply (scheduled_survives times timers' t s); auto. }
  split; [assumption|]. split; [assumption|].
  intros now. rewrite poll_fires_iff. simpl. tauto.
Qed.

(** C1.  The code at fault, run: a Scheduled timer registered in the
    empty registry is due at 0, so the first poll, at time 1, invokes its
    callback, whatever its schedule, and leaves it due at 0 again; the
    claim has it never fire, and the documentation of
    [nih_timer_add_scheduled] has it fire by its schedule. *)
Lemma scheduled_timer_fires_at_first_poll :
  let t := {| addr := 100; due := 0;
              kind := NIH_TIMER_SCHEDULED (Schedule 0);
              callback := 7; data := 0 |} in
  nih_timer_add_scheduled 7 0 (Some (Schedule 0)) 100 None
    = Returned (100, Some [t]) /\
  nih_timer_poll 1 (Some [t]) = (Some [t], [invoke t]).
Proof. split; reflexivity. Qed.

Lemma scheduled_timer_fires_at_every_poll_witness :
  let t := {| addr := 100; due := 0;
              kind := NIH_TIMER_SCHEDULED (Schedule 0);
              callback := 7; data := 0 |} in
  let later := fst (poll_sequence [1; 2] (Some [t])) in
  In t (entries (Some [t])) /\
  In t (entries later) /\
  forall now, In (invoke t) (snd (nih_timer_poll now later)) <-> 0 <= now.
Proof.
  apply (scheduled_timer_fires_at_every_poll
           7 0 (Schedule 0) 100 None (Some [_]) [1; 2]).
  - reflexivity.
  - unfold NULL. lia.
Defined.

(** A Periodic timer is never dropped by polls: an entry that differs
    from it in the due time only stays listed. *)
Lemma periodic_never_removed (times : list time_t) :
  forall (timers : Registry) (t : NihTimer) (p : time_t),
  kind t = NIH_TIMER_PERIODIC p -> In t (entries timers) ->
  exists d, In (set_due t d) (entries (fst (poll_sequence times timers))).
Proof.
  induction times as [|now later IH]; intros timers t p K H.
  - exists (due t). rewrite set_due_same. exact H.
  - rewrite poll_sequence_cons. simpl.
    destruct (Z.ltb_spec now (due t)) as [Hlt|Hge].
    + apply (IH _ t p K).
      apply (in_entries_polled now timers t t H).
      unfold polled. rewrite Z.gtb_ltb.
      destruct (Z.ltb_spec now (due t)); [|lia]. left. reflexivity.
    + destruct (IH (fst (nih_timer_poll now timers))
                   (set_due t (time_add now p)) p K) as [d Hin].
      * apply (in_entries_polled now timers t _ H).
        unfold polled. rewrite Z.gtb_ltb, K.
        destruct (Z.ltb_spec now (due t)); [lia|]. left. reflexivity.
      * exists d. exact Hin.
Qed.

(** As long as the sums do not overflow, its due time never decreases. *)
Lemma periodic_due_grows (times : list time_t) :
  forall (timers : Registry) (t : NihTimer) (p : time_t),
  kind t = NIH_TIMER_PERIODIC p -> 0 < p ->
  Forall (fun now => fits_time (now + p)) times ->
  In t (entries timers) ->
  exists d, due t <= d /\
    In (set_due t d) (entries (fst (poll_sequence times timers))).
Proof.
  induction times as [|now later IH]; intros timers t p K P F H.
  - exists (due t). rewrite set_due_same. split; [lia|exact H].
  - rewrite poll_sequence_cons. simpl.
    inversion F as [|? ? Fnow Flater]; subst.
    destruct (Z.ltb_spec now (due t)) as [Hlt|Hge].
    + apply (IH _ t p K P Flater).
      apply (in_entries_polled now timers t t H).
      unfold polled. rewrite Z.gtb_ltb.
      destruct (Z.ltb_spec now (due t)); [|lia]. left. reflexivity.
    + destruct (IH (fst (nih_timer_poll now timers))
                   (set_due t (now + p)) p K P Flater) as [d [Hd Hin]].
      * apply (in_entries_polled now timers t _ H).
        unfold polled. rewrite Z.gtb_ltb, K, (time_add_fits _ _ Fnow).
        destruct (Z.ltb_spec now (due t)); [lia|]. left. reflexivity.
      * exists d. simpl in Hd. split; [lia|]. exact Hin.
Qed.

(** C2, as the code has it.  A Periodic timer with period [p > 0] is
    fired by a poll at time [now] exactly when it is due; when [now + p]
    does not overflow [time_t], the poll then sets its due time to
    [now + p], at least [p] later than it was and exactly [p] later only
    when the poll runs at the due time itself.  A poll that does not fire
    it leaves it alone, no sequence of polls removes it, and over polls
    whose sums do not overflow its due time never decreases. *)
Theorem periodic_timer_rescheduled_from_now
    (timers : Registry) (t : NihTimer) (p now : time_t) :
  In t (entries timers) ->
  kind t = NIH_TIMER_PERIODIC p ->
  0 < p ->
  fits_time (now + p) ->
  let timers' := fst (nih_timer_poll now timers) in
  (In (invoke t) (snd (nih_timer_poll now timers)) <-> due t <= now) /\
  (due t <= now ->
   exists t', In t' (entries timers') /\ t' = set_due t (now + p) /\
     due t < due t' /\ due t + p <= due t' /\
     (due t' = due t + p <-> now = due t)) /\
  (now < due t -> In t (entries timers')) /\
  (forall times, exists d,
     In (set_due t d) (entries (fst (poll_sequence times timers)))) /\
  (forall times, Forall (fun now' => fits_time (now' + p)) times ->
     exists d, due t <= d /\
       In (set_due t d) (entries (fst (poll_sequence times timers)))).
Proof.
  intros H K P F timers'. split; [|split; [|split; [|split]]].
  - rewrite poll_fires_iff. tauto.
  - intros Hdue. exists (set_due t (now + p)). split.
    + apply (in_entries_polled now timers t _ H).
      unfold polled. rewrite Z.gtb_ltb, K, (time_add_fits _ _ F).
      destruct (Z.ltb_spec now (due t)); [lia|]. left. reflexivity.
    + simpl. repeat split; lia.
  - intros Hlt. apply (in_entries_polled now timers t t H).
    unfold polled. rewrite Z.gtb_ltb.
    destruct (Z.ltb_spec now (due t)); [|lia]. left. reflexivity.
  - intros times. apply (periodic_never_removed times timers t p K H).
  - intros times Ft. apply (periodic_due_grows times timers t p K P Ft H).
Qed.

(** C2 as stated fails: a timer of period 10 registered at time 0 is due
    at 10; polled at 13 it fires and is due at 23, 13 later, not 10. *)
Lemma periodic_late_poll_counterexample :
  let t := {| addr := 100; due := 10; kind := NIH_TIMER_PERIODIC 10;
              callback := 7; data := 0 |} in
  nih_timer_add_periodic 7 0 10 0 100 None = Returned (100, Some [t]) /\
  nih_timer_poll 13 (Some [t]) = (Some [set_due t 23], [invoke t]) /\
  23 - due t <> 10.
Proof. repeat split. simpl. lia. Qed.

Lemma periodic_timer_rescheduled_from_now_witness :
  let t := {| addr := 100; due := 10; kind := NIH_TIMER_PERIODIC 10;
              callback := 7; data := 0 |} in
  let timers := Some [t] in
  let timers' := fst (nih_timer_poll 13 timers) in
  (In (invoke t) (snd (nih_timer_poll 13 timers)) <-> due t <= 13) /\
  (due t <= 13 ->
   exists t', In t' (entries timers') /\ t' = set_due t (13 + 10) /\
     due t < due t' /\ due t + 10 <= due t' /\
     (due t' = due t + 10 <-> 13 = due t)) /\
  (13 < due t -> In t (entries timers')) /\
  (forall times, exists d,
     In (set_due t d) (entries (fst (poll_sequence times timers)))) /\
  (forall times, Forall (fun now' => fits_time (now' + 10)) times ->
     exists d, due t <= d /\
       In (set_due t d) (entries (fst (poll_sequence times timers)))).
Proof.
  apply (periodic_timer_rescheduled_from_now
           (Some [mkTimer 100 10 (NIH_TIMER_PERIODIC 10) 7 0])
           (mkTimer 100 10 (NIH_TIMER_PERIODIC 10) 7 0) 10 13).
  - simpl. left. reflexivity.
  - reflexivity.
  - lia.
  - unfold fits_time, TIME_MIN, TIME_MAX. lia.
Defined.

Lemma poll_entries_app (now : time_t) (timers : Registry)
    (l : list NihTimer) (t : NihTimer) :
  entries timers = l ++ [t] ->
  entries (fst (nih_timer_poll now timers))
  = flat_map (polled now) l ++ polled now t.
Proof.
  intros E. rewrite poll_entries, E, flat_map_app. simpl.
  rewrite app_nil_r. reflexivity.
Qed.

Lemma flat_map_polled_addr (now : time_t) (l : list NihTimer) (a : ptr) :
  In a (map addr (flat_map (polled now) l)) -> In a (map addr l).
Proof.
  rewrite !in_map_iff.
  intros [t' [E H]]. apply in_flat_map in H. destruct H as [t [H1 H2]].
  exists t. split; [|assumption].
  apply polled_addr in H2. congruence.
Qed.

(** Polls that all come before a timer is due leave it last in the list,
    uninvoked, and bring no second entry at its address. *)
Lemma early_polls_keep (t : NihTimer) (early : list time_t) :
  forall (timers : Registry) (l : list NihTimer),
  entries timers = l ++ [t] ->
  ~ In (addr t) (map addr l) ->
  Forall (fun now => now < due t) early ->
  exists l',
    entries (fst (poll_sequence early timers)) = l' ++ [t] /\
    ~ In (addr t) (map addr l') /\
    ~ In (invoke t) (snd (poll_sequence early timers)).
Proof.
  induction early as [|now later IH]; intros timers l E Hfresh Hearly.
  - exists l. simpl. auto.
  - rewrite poll_sequence_cons. simpl.
    inversion Hearly as [|? ? Hnow Hlater]; subst.
    assert (Ht : polled now t = [t]).
    { unfold polled. rewrite Z.gtb_ltb.
      destruct (Z.ltb_spec now (due t)); [reflexivity|lia]. }
    destruct (IH (fst (nih_timer_poll now timers))
                 (flat_map (polled now) l)) as [l' [E' [F' N']]].
    + rewrite (poll_entries_app now timers l t E), Ht. reflexivity.
    + intros Hin. apply Hfresh. apply (flat_map_polled_addr now). exact Hin.
    + exact Hlater.
    + exists l'. split; [exact E'|]. split; [exact F'|].
      intros Hin. apply in_app_or in Hin. destruct Hin as [Hin|Hin].
      * apply poll_fires_iff in Hin. lia.
      * exact (N' Hin).
Qed.

(** C7, as the code has it.  [nih_timer_add_timeout] at time [T] with
    delay [t] (of any sign, [T + t] not overflowing [time_t]) registers
    a timer due at [T + t], at a fresh address.  As long as every poll comes before [T + t] the timer stays
    listed and uninvoked, and [nih_timer_next_due] reports the due time
    [T + t] whenever no listed timer is due earlier.  The first poll at
    or after [T + t] invokes the callback and leaves no entry at the
    timer's address. *)
Theorem timeout_listed_until_fired
    (callback data : ptr) (t T : time_t) (block : ptr)
    (timers timers' : Registry) (early : list time_t) :
  nih_timer_add_timeout callback data t T block timers
    = Returned (block, timers') ->
  block <> NULL ->
  fits_time (T + t) ->
  ~ In block (map addr (entries timers)) ->
  Forall (fun now => now < T + t) early ->
  let timer := {| addr := block; due := T + t; kind := NIH_TIMER_TIMEOUT t;
                  callback := callback; data := data |} in
  let before := poll_sequence early timers' in
  In timer (entries timers') /\
  In timer (entries (fst before)) /\
  ~ In (invoke timer) (snd before) /\
  ((forall x, In x (entries (fst before)) -> T + t <= due x) ->
   option_map due (snd (nih_timer_next_due (fst before))) = Some (T + t)) /\
  (forall now, T + t <= now ->
     In (invoke timer) (snd (nih_timer_poll now (fst before))) /\
     ~ In block (map addr (entries (fst (nih_timer_poll now (fst before)))))).
Proof.
  intros Hadd Hblock Hfits Hfresh Hearly timer before.
  assert (E : entries timers' = entries timers ++ [timer]).
  { unfold nih_timer_add_timeout in Hadd.
    rewrite (time_add_fits _ _ Hfits) in Hadd.
    destruct (callback =? NULL); [discriminate|].
    destruct (Z.eqb_spec block NULL) as [|_]; [contradiction|].
    injection Hadd as <-. simpl. unfold nih_list_add.
    destruct timers; reflexivity. }
  destruct (early_polls_keep timer early timers' (entries timers) E Hfresh Hearly)
    as [l' [E' [F' N']]].
  fold before in E', N'.
  assert (Hin : In timer (entries (fst before))).
  { rewrite E'. apply in_or_app. right. left. reflexivity. }
  split; [rewrite E; apply in_or_app; right; left; reflexivity|].
  split; [exact Hin|]. split; [exact N'|]. split.
  - intros Hmin.
    destruct (next_due_scan (fst before)) as [_ [_ Hnext]].
    destruct Hnext as [b [next [a [El [-> [Hb Ha]]]]]].
    { intros Hnil. rewrite Hnil in Hin. exact Hin. }
    simpl. f_equal.
    assert (Hn : In next (entries (fst before))).
    { rewrite El. apply in_or_app. right. left. reflexivity. }
    apply Hmin in Hn.
    assert (Hle : due next <= due timer).
    { rewrite El in Hin. apply in_app_or in Hin.
      destruct Hin as [Hin|[<-|Hin]];
        [apply Hb in Hin; lia | lia | apply Ha in Hin; lia]. }
    simpl in Hle. lia.
  - intros now Hnow. split.
    + apply poll_fires_iff. split; [exact Hin|exact Hnow].
    + rewrite (poll_entries_app now (fst before) l' timer E').
      assert (Ht : polled now timer = []).
      { unfold polled. rewrite Z.gtb_ltb. simpl.
        destruct (Z.ltb_spec now (T + t)); [lia|reflexivity]. }
      rewrite Ht, app_nil_r. intros Hin'. apply F'.
      apply (flat_map_polled_addr now). exact Hin'.
Qed.

(** C7 as stated fails: with a timer due at 3 already listed, a timeout
    of 5 registered at time 0 is due at 5, but [nih_timer_next_due]
    returns the other timer and so reports 3. *)
Lemma timeout_not_reported_counterexample :
  let earlier := {| addr := 50; due := 3; kind := NIH_TIMER_TIMEOUT 3;
                    callback := 7; data := 0 |} in
  let timer := {| addr := 100; due := 0 + 5; kind := NIH_TIMER_TIMEOUT 5;
                  callback := 7; data := 0 |} in
  nih_timer_add_timeout 7 0 5 0 100 (Some [earlier])
    = Returned (100, Some [earlier; timer]) /\
  snd (nih_timer_next_due (Some [earlier; timer])) = Some earlier /\
  due earlier <> 0 + 5.
Proof. repeat split. simpl. lia. Qed.

Lemma timeout_listed_until_fired_witness :
  let periodic := {| addr := 50; due := 10; kind := NIH_TIMER_PERIODIC 10;
                     callback := 7; data := 0 |} in
  let timer := {| addr := 100; due := 0 + 5; kind := NIH_TIMER_TIMEOUT 5;
                  callback := 7; data := 0 |} in
  let timers' := Some [periodic; timer] in
  let before := poll_sequence [1; 4] timers' in
  In timer (entries timers') /\
  In timer (entries (fst before)) /\
  ~ In (invoke timer) (snd before) /\
  ((forall x, In x (entries (fst before)) -> 0 + 5 <= due x) ->
   option_map due (snd (nih_timer_next_due (fst before))) = Some (0 + 5)) /\
  (forall now, 0 + 5 <= now ->
     In (invoke timer) (snd (nih_timer_poll now (fst before))) /\
     ~ In 100 (map addr (entries (fst (nih_timer_poll now (fst before)))))).
Proof.
  apply (timeout_listed_until_fired 7 0 5 0 100
           (Some [mkTimer 50 10 (NIH_TIMER_PERIODIC 10) 7 0])
           (Some [mkTimer 50 10 (NIH_TIMER_PERIODIC 10) 7 0;
                  mkTimer 100 (0 + 5) (NIH_TIMER_TIMEOUT 5) 7 0])
           [1; 4]).
  - reflexivity.
  - unfold NULL. lia.
  - unfold fits_time, TIME_MIN, TIME_MAX. lia.
  - simpl. intros [H|[]]. lia.
  - repeat constructor.
Defined.


End TimerClaims.

(* ------------------------------------------------------------------ *)
(** ** Properties of the child watch registry *)

Section ChildFacts.
Import Child.

Lemma decode_free_watch (i : siginfo_t) (e : NihChildEvents) (s : Z)
    (fw : bool) :
  decode i = Some (e, s, fw) -> fw = terminal e.
Proof.
  unfold decode. intros H.
  repeat match type of H with
         | (if ?c then _ else _) = _ => destruct c
         end;
    try discriminate; injection H as <- <- <-; reflexivity.
Qed.

Lemma interestedb_spec (p : pid_t) (e : NihChildEvents) (w : NihChildWatch) :
  interestedb p e w = true <-> interested w p e.
Proof.
  unfold interestedb, interested.
  rewrite andb_true_iff, orb_true_iff, negb_true_iff, !Z.eqb_eq, Z.eqb_neq.
  tauto.
Qed.

(** The watches a dispatch leaves: all but those for one process that
    were invoked while [free_watch] was set. *)
Lemma dispatch_entries (p : pid_t) (e : NihChildEvents) (s : Z) (fw : bool)
    (l : list NihChildWatch) :
  fst (dispatch p e s fw l)
  = filter (fun w => negb (interestedb p e w && (fw && negb (pid w =? -1)))) l.
Proof.
  induction l as [|w rest IH]; simpl; [reflexivity|].
  destruct (dispatch p e s fw rest) as [rest' evs]; simpl in IH; subst rest'.
  unfold interestedb.
  destruct (pid w =? p), (pid w =? -1),
           (Z.land (events w) (event_bits e) =? 0), fw; reflexivity.
Qed.

(** The handlers a dispatch invokes: those of the interested watches, in
    list order, all with the same arguments. *)
Lemma dispatch_events (p : pid_t) (e : NihChildEvents) (s : Z) (fw : bool)
    (l : list NihChildWatch) :
  snd (dispatch p e s fw l)
  = map (fun w => EvHandler w p e s) (filter (interestedb p e) l).
Proof.
  induction l as [|w rest IH]; simpl; [reflexivity|].
  destruct (dispatch p e s fw rest) as [rest' evs]; simpl in IH; subst evs.
  unfold interestedb.
  destruct (pid w =? p), (pid w =? -1),
           (Z.land (events w) (event_bits e) =? 0), fw; reflexivity.
Qed.

Lemma after_returned (evs : list Event) (r : Run State)
    (k : Kernel) (l : list NihChildWatch) (evs' : list Event) :
  after evs r = Finished (Returned (k, l, evs')) ->
  exists evs0, r = Finished (Returned (k, l, evs0)) /\ evs' = evs ++ evs0.
Proof.
  destruct r as [|[|[[k0 l0] evs0]]]; simpl; try discriminate.
  intros H. injection H as <- <- <-. exists evs0. auto.
Qed.

Lemma poll_loop_drains (fuel : nat) :
  forall (k : Kernel) (l : list NihChildWatch)
         (k' : Kernel) (l' : list NihChildWatch) (evs : list Event),
  poll_loop fuel k l = Finished (Returned (k', l', evs)) ->
  drains (pending k) l evs (pending k') l' /\ echild k' = echild k.
Proof.
  induction fuel as [|fuel IH]; intros k l k' l' evs; simpl; [discriminate|].
  unfold waitid_peek.
  destruct (pending k) as [|i q] eqn:Eq.
  - destruct (echild k) eqn:Ee; simpl; intros H; injection H as <- <- <-;
      rewrite Eq; (split; [apply drains_none|exact Ee]).
  - simpl. destruct (Z.eqb_spec (si_pid i) 0) as [Hz|Hnz].
    + intros H; injection H as <- <- <-. rewrite Eq. split; [|reflexivity].
      apply drains_zero; assumption.
    + destruct (decode i) as [[[e s] fw]|] eqn:Ed; [|discriminate].
      destruct (dispatch (si_pid i) e s fw l) as [l1 evs1] eqn:Edis.
      intros H. apply after_returned in H. destruct H as [evs0 [H ->]].
      apply IH in H. destruct H as [H Hech]. simpl in H, Hech.
      rewrite Eq in H. simpl in H. rewrite Z.eqb_refl in H.
      split; [|exact Hech].
      pose proof (drains_round i q l e s fw evs0 (pending k') l' Hnz Ed) as R.
      rewrite Edis in R. simpl in R. unfold round_events in R.
      simpl in R. rewrite <- app_assoc in R. simpl in R.
      simpl. rewrite <- app_assoc. simpl. apply R. exact H.
Qed.

(** The loop is never cut short by the unrolling [nih_child_poll] allows
    it. *)
Lemma poll_loop_enough_fuel (fuel : nat) :
  forall (k : Kernel) (l : list NihChildWatch),
  (length (pending k) < fuel)%nat -> poll_loop fuel k l <> OutOfFuel.
Proof.
  induction fuel as [|fuel IH]; intros k l Hlen; [lia|]. simpl.
  unfold waitid_peek.
  destruct (pending k) as [|i q] eqn:Eq.
  - destruct (echild k); simpl; discriminate.
  - simpl. destruct (si_pid i =? 0); [discriminate|].
    destruct (decode i) as [[[e s] fw]|]; [|discriminate].
    destruct (dispatch (si_pid i) e s fw l) as [l1 evs1].
    specialize (IH (waitid_reap (si_pid i) k) l1).
    destruct (poll_loop fuel (waitid_reap (si_pid i) k) l1)
      as [|[|[[k0 l0] evs0]]]; simpl; try discriminate.
    exfalso. apply IH; [|reflexivity].
    simpl. rewrite Eq. simpl. rewrite Z.eqb_refl. simpl in Hlen. lia.
Qed.

(** With reportable transitions only, the loop returns, having drained
    them all. *)
Lemma poll_loop_returns (fuel : nat) :
  forall (k : Kernel) (l : list NihChildWatch),
  (length (pending k) < fuel)%nat ->
  Forall reportable (pending k) ->
  exists l' evs,
    poll_loop fuel k l
    = Finished (Returned ({| pending := []; echild := echild k |}, l', evs)).
Proof.
  induction fuel as [|fuel IH]; intros k l Hlen Hrep; [lia|]. simpl.
  unfold waitid_peek.
  destruct k as [q ech]. simpl in *.
  destruct q as [|i q].
  - destruct ech; simpl; eauto.
  - inversion Hrep as [|? ? [Hpid Hdec] Hrest]; subst. simpl.
    destruct (Z.eqb_spec (si_pid i) 0) as [|_]; [contradiction|].
    destruct (decode i) as [[[e s] fw]|]; [|congruence].
    destruct (dispatch (si_pid i) e s fw l) as [l1 evs1].
    destruct (IH (waitid_reap (si_pid i) (mkKernel (i :: q) ech)) l1)
      as [l' [evs E]].
    + simpl. rewrite Z.eqb_refl. simpl in Hlen. lia.
    + simpl. rewrite Z.eqb_refl. exact Hrest.
    + rewrite E. simpl. eauto.
Qed.

Lemma filter_nonempty {A : Type} (f : A -> bool) (l : list A) :
  (0 < length (filter f l))%nat -> exists x, In x l /\ f x = true.
Proof.
  destruct (filter f l) as [|x rest] eqn:E; simpl; [lia|]. intros _.
  assert (H : In x (filter f l)) by (rewrite E; left; reflexivity).
  apply filter_In in H. exists x. exact H.
Qed.

Lemma NoDup_map_same {A B : Type} (f : A -> B) (l : list A) (a b : A) :
  NoDup (map f l) -> In a l -> In b l -> f a = f b -> a = b.
Proof.
  induction l as [|x rest IH]; simpl; intros N Ha Hb E; [contradiction|].
  inversion N as [|? ? Hx N']; subst.
  destruct Ha as [->|Ha], Hb as [->|Hb]; auto.
  - exfalso. apply Hx. rewrite E. apply in_map. exact Hb.
  - exfalso. apply Hx. rewrite <- E. apply in_map. exact Ha.
Qed.

Lemma NoDup_map_filter {A B : Type} (f : A -> B) (g : A -> bool)
    (l : list A) :
  NoDup (map f l) -> NoDup (map f (filter g l)).
Proof.
  induction l as [|x rest IH]; simpl; intros N; [constructor|].
  inversion N as [|? ? Hx N']; subst.
  destruct (g x); simpl; [|auto].
  constructor; [|auto].
  intros H. apply Hx. apply in_map_iff in H. destruct H as [y [E H]].
  apply filter_In in H. rewrite <- E. apply in_map. tauto.
Qed.

Lemma terminal_call_at_true (a : ptr) (ev : Event) :
  terminal_call_at a ev = true ->
  exists w p e s, ev = EvHandler w p e s /\ addr w = a /\ terminal e = true.
Proof.
  destruct ev as [ret info|w p e s|p]; simpl; try discriminate.
  rewrite andb_true_iff, Z.eqb_eq. intros [H1 H2]. exists w, p, e, s. auto.
Qed.

Lemma released_app (w : NihChildWatch) (evs1 evs2 : list Event) :
  released w (evs1 ++ evs2) <-> released w evs1 \/ released w evs2.
Proof.
  unfold released. split.
  - intros [Hp [p [e [s [H Ht]]]]]. apply in_app_or in H.
    destruct H as [H|H]; [left|right]; (split; [exact Hp|]);
      exists p, e, s; auto.
  - intros [[Hp [p [e [s [H Ht]]]]]|[Hp [p [e [s [H Ht]]]]]];
      (split; [exact Hp|]); exists p, e, s; (split; [|exact Ht]);
      apply in_or_app; auto.
Qed.

(** A terminal call at the address of a listed watch is a call of that
    watch, which is thereby released. *)
Lemma terminal_call_releases (l : list NihChildWatch) (evs : list Event)
    (l' : list NihChildWatch) (w : NihChildWatch) :
  orderly l evs l' -> NoDup (map addr l) -> In w l -> pid w <> -1 ->
  (0 < length (filter (terminal_call_at (addr w)) evs))%nat ->
  released w evs.
Proof.
  intros [_ [Hcalls _]] N Hw Hp Hpos.
  apply filter_nonempty in Hpos. destruct Hpos as [ev [Hin Hev]].
  apply terminal_call_at_true in Hev.
  destruct Hev as [w' [p [e [s [-> [Ea Ht]]]]]].
  destruct (Hcalls _ _ _ _ Hin) as [Hw' _].
  assert (w' = w) by (apply (NoDup_map_same addr l); auto). subst w'.
  split; [exact Hp|]. exists p, e, s. auto.
Qed.

Lemma orderly_app (l l1 l2 : list NihChildWatch) (evs1 evs2 : list Event) :
  orderly l evs1 l1 -> orderly l1 evs2 l2 -> orderly l (evs1 ++ evs2) l2.
Proof.
  intros O1 O2.
  pose proof O1 as [K1 [C1 N1]]. pose proof O2 as [K2 [C2 N2]].
  split; [|split].
  - intros w. rewrite released_app, K2, K1. tauto.
  - intros w p e s H. apply in_app_or in H. destruct H as [H|H].
    + apply (C1 _ _ _ _ H).
    + destruct (C2 _ _ _ _ H) as [Hw Hi]. split; [|exact Hi].
      apply K1 in Hw. tauto.
  - intros N. destruct (N1 N) as [Nl1 Once1].
    destruct (N2 Nl1) as [Nl2 Once2]. split; [exact Nl2|].
    intros w Hw Hp. rewrite filter_app, length_app.
    specialize (Once1 w Hw Hp).
    destruct (length (filter (terminal_call_at (addr w)) evs2)) as [|n2] eqn:E2;
      [lia|].
    assert (Hw1 : In w l1).
    { assert (Hpos : (0 < length (filter (terminal_call_at (addr w)) evs2))%nat)
        by lia.
      apply filter_nonempty in Hpos. destruct Hpos as [ev [Hin Hev]].
      apply terminal_call_at_true in Hev.
      destruct Hev as [w' [p [e [s [-> [Ea Ht]]]]]].
      destruct (C2 _ _ _ _ Hin) as [Hw' _].
      assert (Hw'l : In w' l) by (apply K1 in Hw'; tauto).
      assert (w' = w) by (apply (NoDup_map_same addr l); auto).
      subst w'. exact Hw'. }
    specialize (Once2 w Hw1 Hp). rewrite E2 in Once2.
    destruct (length (filter (terminal_call_at (addr w)) evs1)) as [|n1] eqn:E1;
      [lia|].
    exfalso.
    assert (R : released w evs1).
    { apply (terminal_call_releases l evs1 l1 w O1 N Hw Hp). lia. }
    apply K1 in Hw1. tauto.
Qed.

Lemma in_dispatch_events (p : pid_t) (e : NihChildEvents) (s : Z) (fw : bool)
    (l : list NihChildWatch) (w : NihChildWatch)
    (p' : pid_t) (e' : NihChildEvents) (s' : Z) :
  In (EvHandler w p' e' s') (snd (dispatch p e s fw l))
  <-> In w l /\ interested w p e /\ (p', e', s') = (p, e, s).
Proof.
  rewrite dispatch_events, in_map_iff. split.
  - intros [w0 [E H]]. injection E as -> -> -> ->.
    apply filter_In in H. rewrite interestedb_spec in H. tauto.
  - intros [Hw [Hi E]]. injection E as -> -> ->.
    exists w. split; [reflexivity|].
    apply filter_In. rewrite interestedb_spec. tauto.
Qed.

Lemma in_round_events (i : siginfo_t) (hs : list Event) (w : NihChildWatch)
    (p : pid_t) (e : NihChildEvents) (s : Z) :
  In (EvHandler w p e s) (round_events i hs) <-> In (EvHandler w p e s) hs.
Proof.
  unfold round_events. simpl. rewrite in_app_iff. simpl.
  split; [|tauto].
  intros [H|[H|[H|[]]]]; try discriminate; exact H.
Qed.

Lemma count_round_events (a : ptr) (i : siginfo_t) (hs : list Event) :
  length (filter (terminal_call_at a) (round_events i hs))
  = length (filter (terminal_call_at a) hs).
Proof.
  unfold round_events. simpl. rewrite filter_app, length_app. simpl. lia.
Qed.

Lemma no_call_at (a : ptr) (p : pid_t) (e : NihChildEvents) (s : Z)
    (l : list NihChildWatch) :
  ~ In a (map addr l) ->
  filter (terminal_call_at a) (map (fun w => EvHandler w p e s) l) = [].
Proof.
  induction l as [|w rest IH]; simpl; intros H; [reflexivity|].
  destruct (Z.eqb_spec (addr w) a) as [E|_]; [exfalso; auto|].
  simpl. apply IH. auto.
Qed.

Lemma call_at_most_once (a : ptr) (p : pid_t) (e : NihChildEvents) (s : Z)
    (l : list NihChildWatch) :
  NoDup (map addr l) ->
  (length (filter (terminal_call_at a)
                  (map (fun w => EvHandler w p e s) l)) <= 1)%nat.
Proof.
  induction l as [|w rest IH]; simpl; intros N; [lia|].
  inversion N as [|? ? Hx N']; subst.
  destruct (Z.eqb_spec (addr w) a) as [E|_]; simpl; [|auto].
  destruct (terminal e); simpl; [|auto].
  rewrite no_call_at; [simpl; lia|]. rewrite <- E. exact Hx.
Qed.

Lemma orderly_quiet (l : list NihChildWatch) (ret : Z) (info : siginfo_t) :
  orderly l [EvPeek ret info] l.
Proof.
  split; [|split].
  - intros w. split; [|tauto]. intros H. split; [exact H|].
    intros [_ [p [e [s [[H'|[]] _]]]]]. discriminate.
  - intros w p e s [H|[]]. discriminate.
  - intros N. split; [exact N|]. intros w _ _. simpl. lia.
Qed.

Lemma orderly_nil (l : list NihChildWatch) : orderly l [] l.
Proof.
  split; [|split].
  - intros w. split; [|tauto]. intros H. split; [exact H|].
    intros [_ [p [e [s [[] _]]]]].
  - intros w p e s [].
  - intros N. split; [exact N|]. intros w _ _. simpl. lia.
Qed.

(** One turn of the loop. *)
Lemma orderly_round (i : siginfo_t) (e : NihChildEvents) (s : Z) (fw : bool)
    (l : list NihChildWatch) :
  decode i = Some (e, s, fw) ->
  orderly l (round_events i (snd (dispatch (si_pid i) e s fw l)))
          (fst (dispatch (si_pid i) e s fw l)).
Proof.
  intros D. apply decode_free_watch in D. subst fw.
  split; [|split].
  - intros w. rewrite dispatch_entries, filter_In. unfold released.
    split.
    + intros [Hw F]. split; [exact Hw|].
      intros [Hp [p [e' [s' [H Ht]]]]].
      apply in_round_events, in_dispatch_events in H.
      destruct H as [_ [Hi E]]. injection E as -> -> ->.
      apply interestedb_spec in Hi. rewrite Hi, Ht in F. simpl in F.
      apply negb_true_iff, negb_false_iff, Z.eqb_eq in F. contradiction.
    + intros [Hw R]. split; [exact Hw|].
      destruct (interestedb (si_pid i) e w) eqn:Ei; [|reflexivity].
      destruct (terminal e) eqn:Et; [|reflexivity].
      destruct (Z.eqb_spec (pid w) (-1)) as [|Hp]; [reflexivity|].
      exfalso. apply R. split; [exact Hp|]. exists (si_pid i), e, s.
      split; [|exact Et].
      apply in_round_events, in_dispatch_events.
      apply interestedb_spec in Ei. auto.
  - intros w p e' s' H.
    apply in_round_events, in_dispatch_events in H.
    destruct H as [Hw [Hi E]]. injection E as -> -> ->. auto.
  - intros N. split.
    + rewrite dispatch_entries. apply NoDup_map_filter. exact N.
    + intros w _ _. rewrite count_round_events, dispatch_events.
      apply call_at_most_once. apply NoDup_map_filter. exact N.
Qed.

Lemma drains_orderly (q : list siginfo_t) (l : list NihChildWatch)
    (evs : list Event) (q' : list siginfo_t) (l' : list NihChildWatch) :
  drains q l evs q' l' -> orderly l evs l'.
Proof.
  induction 1 as [l ret|i q l Hz|i q l e s fw evs q' l' Hnz D _ IH].
  - apply orderly_quiet.
  - apply orderly_quiet.
  - apply (orderly_app l (fst (dispatch (si_pid i) e s fw l)) l');
      [apply orderly_round; exact D|exact IH].
Qed.

(** What [nih_child_poll] returns comes from a run of its loop. *)
Lemma poll_returned (k : Kernel) (child_watches : Registry)
    (k' : Kernel) (child_watches' : Registry) (evs : list Event) :
  nih_child_poll k child_watches
    = Finished (Returned (k', child_watches', evs)) ->
  drains (pending k) (entries child_watches) evs
         (pending k') (entries child_watches') /\
  echild k' = echild k /\ child_watches' <> None.
Proof.
  unfold nih_child_poll.
  assert (E : entries (nih_child_init child_watches) = entries child_watches)
    by (destruct child_watches; reflexivity).
  rewrite E.
  destruct (poll_loop (S (length (pending k))) k (entries child_watches))
    as [|[|[[k0 l0] evs0]]] eqn:P; try discriminate.
  intros H. injection H as <- <- <-.
  apply poll_loop_drains in P. simpl. destruct P. repeat split; auto.
  discriminate.
Qed.

Lemma poll_orderly (k : Kernel) (child_watches : Registry)
    (k' : Kernel) (child_watches' : Registry) (evs : list Event) :
  nih_child_poll k child_watches
    = Finished (Returned (k', child_watches', evs)) ->
  orderly (entries child_watches) evs (entries child_watches').
Proof.
  intros H. apply poll_returned in H. destruct H as [H _].
  apply (drains_orderly _ _ _ _ _ H).
Qed.

Lemma child_poll_sequence_step (k : Kernel) (later : list Kernel)
    (child_watches child_watches' : Registry) (evs : list Event) :
  poll_sequence (k :: later) child_watches
    = Finished (Returned (child_watches', evs)) ->
  exists k1 child_watches1 evs1 evs2,
    nih_child_poll k child_watches
      = Finished (Returned (k1, child_watches1, evs1)) /\
    poll_sequence later child_watches1
      = Finished (Returned (child_watches', evs2)) /\
    evs = evs1 ++ evs2.
Proof.
  cbn [poll_sequence].
  destruct (nih_child_poll k child_watches) as [|[|[[k1 r1] evs1]]];
    try discriminate.
  destruct (poll_sequence later r1) as [|[|[r2 evs2]]] eqn:E2;
    try discriminate.
  intros H. injection H as <- <-. exists k1, r1, evs1, evs2.
  repeat split; [exact E2].
Qed.

Lemma poll_sequence_orderly (ks : list Kernel) :
  forall (child_watches child_watches' : Registry) (evs : list Event),
  poll_sequence ks child_watches = Finished (Returned (child_watches', evs)) ->
  orderly (entries child_watches) evs (entries child_watches').
Proof.
  induction ks as [|k later IH]; intros r r' evs H.
  - simpl in H. injection H as <- <-. apply orderly_nil.
  - apply child_poll_sequence_step in H.
    destruct H as [k1 [r1 [evs1 [evs2 [H1 [H2 ->]]]]]].
    apply (orderly_app _ (entries r1)).
    + apply (poll_orderly _ _ _ _ _ H1).
    + apply (IH _ _ _ H2).
Qed.

(** Every handler call of a run answers a transition that was pending. *)
Lemma drains_calls_pending (q : list siginfo_t) (l : list NihChildWatch)
    (evs : list Event) (q' : list siginfo_t) (l' : list NihChildWatch) :
  drains q l evs q' l' ->
  forall w p e s, In (EvHandler w p e s) evs ->
  exists i fw, In i q /\ si_pid i = p /\ decode i = Some (e, s, fw).
Proof.
  induction 1 as [l ret|i q l Hz|i q l e s fw evs q' l' Hnz D _ IH];
    intros w p' e' s' Hin.
  - destruct Hin as [Hin|[]]. discriminate.
  - destruct Hin as [Hin|[]]. discriminate.
  - apply in_app_or in Hin. destruct Hin as [Hin|Hin].
    + apply in_round_events, in_dispatch_events in Hin.
      destruct Hin as [_ [_ E]]. injection E as -> -> ->.
      exists i, fw. split; [left; reflexivity|]. auto.
    + destruct (IH _ _ _ _ Hin) as [i' [fw' [Hi' H']]].
      exists i', fw'. split; [right; exact Hi'|exact H'].
Qed.

Lemma poll_sequence_calls_pending (ks : list Kernel) :
  forall (child_watches child_watches' : Registry) (evs : list Event),
  poll_sequence ks child_watches = Finished (Returned (child_watches', evs)) ->
  forall w p e s, In (EvHandler w p e s) evs ->
  exists k i fw,
    In k ks /\ In i (pending k) /\ si_pid i = p /\
    decode i = Some (e, s, fw).
Proof.
  induction ks as [|k later IH]; intros r r' evs H w p e s Hin.
  - simpl in H. injection H as <- <-. destruct Hin.
  - apply child_poll_sequence_step in H.
    destruct H as [k1 [r1 [evs1 [evs2 [H1 [H2 ->]]]]]].
    apply in_app_or in Hin. destruct Hin as [Hin|Hin].
    + apply poll_returned in H1. destruct H1 as [Dr _].
      destruct (drains_calls_pending _ _ _ _ _ Dr _ _ _ _ Hin)
        as [i [fw [Hi H']]].
      exists k, i, fw. split; [left; reflexivity|]. auto.
    + destruct (IH _ _ _ H2 _ _ _ _ Hin) as [k' [i [fw [Hk H']]]].
      exists k', i, fw. split; [right; exact Hk|exact H'].
Qed.

Lemma poll_never_cut_short (k : Kernel) (child_watches : Registry) :
  nih_child_poll k child_watches <> OutOfFuel.
Proof.
  unfold nih_child_poll.
  pose proof (poll_loop_enough_fuel (S (length (pending k))) k
                (entries (nih_child_init child_watches))) as H.
  destruct (poll_loop (S (length (pending k))) k
              (entries (nih_child_init child_watches)))
    as [|[|[[k0 l0] evs0]]]; try discriminate.
  exfalso. apply H; [lia|reflexivity].
Qed.

(** Against reportable transitions the poll returns. *)
Lemma poll_returns (k : Kernel) (child_watches : Registry) :
  Forall reportable (pending k) ->
  exists l' evs,
    nih_child_poll k child_watches
    = Finished (Returned ({| pending := []; echild := echild k |},
                          Some l', evs)).
Proof.
  intros Hrep.
  destruct (poll_loop_returns (S (length (pending k))) k
              (entries (nih_child_init child_watches)))
    as [l' [evs P]]; [lia|exact Hrep|].
  exists l', evs. unfold nih_child_poll. rewrite P. reflexivity.
Qed.

Lemma poll_sequence_returns (ks : list Kernel) :
  forall child_watches : Registry,
  Forall (fun k => Forall reportable (pending k)) ks ->
  exists child_watches' evs,
    poll_sequence ks child_watches
    = Finished (Returned (child_watches', evs)).
Proof.
  induction ks as [|k later IH]; intros r Hrep.
  - exists r, []. reflexivity.
  - inversion Hrep as [|? ? Hk Hlater]; subst.
    destruct (poll_returns k r Hk) as [l1 [evs1 E1]].
    destruct (IH (Some l1) Hlater) as [r2 [evs2 E2]].
    exists r2, (evs1 ++ evs2). simpl. rewrite E1, E2. reflexivity.
Qed.

End ChildFacts.

Section ChildClaims.
Import Child.

(** C8.  In the dispatch of a transition [(p, e, s)] over the watch list
    [l], the handler of a watch is invoked exactly when the watch is
    listed, its pid is [p] or the wildcard -1, and its mask includes
    [e]; every invocation carries the same [(p, e, s)]; and the
    invocations are those of the interested watches in list order, one
    each.  Accordingly every handler call [nih_child_poll] makes is for
    a listed watch, with the pid, event and status decoded from a
    pending transition that the watch is interested in. *)
Theorem handler_invoked_iff_interested :
  (forall p e s fw l,
     (forall w p' e' s',
        In (EvHandler w p' e' s') (snd (dispatch p e s fw l))
        <-> In w l /\ (pid w = p \/ pid w = -1) /\
            Z.land (events w) (event_bits e) <> 0 /\
            (p', e', s') = (p, e, s)) /\
     snd (dispatch p e s fw l)
     = map (fun w => EvHandler w p e s) (filter (interestedb p e) l)) /\
  (forall p e w, interestedb p e w = true <->
     (pid w = p \/ pid w = -1) /\ Z.land (events w) (event_bits e) <> 0) /\
  (forall k child_watches k' child_watches' evs,
     nih_child_poll k child_watches
       = Finished (Returned (k', child_watches', evs)) ->
     forall w p e s, In (EvHandler w p e s) evs ->
       In w (entries child_watches) /\
       (pid w = p \/ pid w = -1) /\
       Z.land (events w) (event_bits e) <> 0 /\
       exists i fw,
         In i (pending k) /\ si_pid i = p /\ decode i = Some (e, s, fw)).
Proof.
  split; [|split].
  - intros p e s fw l. split.
    + intros w p' e' s'. rewrite in_dispatch_events. unfold interested. tauto.
    + apply dispatch_events.
  - intros p e w. apply interestedb_spec.
  - intros k r k' r' evs Hrun w p e s Hin.
    pose proof (poll_orderly _ _ _ _ _ Hrun) as [_ [C _]].
    destruct (C _ _ _ _ Hin) as [Hw [Hpid Hland]].
    apply poll_returned in Hrun. destruct Hrun as [Dr _].
    pose proof (drains_calls_pending _ _ _ _ _ Dr _ _ _ _ Hin) as Hpend.
    auto.
Qed.

(** C4, as the code has it.  For a CLD_TRAPPED transition with raw
    status [st]: when the low seven bits of [st] ([st mod 128]) equal
    SIGTRAP and some bit above them is set ([st] is not within 0..127),
    the event is Ptrace and the status is [st] shifted right by 8
    ([st / 256]); otherwise the event is Trapped and the status is [st].
    [free_watch] is cleared either way. *)
Theorem trap_decoded_on_low_seven_bits (p : pid_t) (st : Z) :
  let info := {| si_pid := p; si_code := CLD_TRAPPED; si_status := st |} in
  (Z.land st 127 = SIGTRAP /\ Z.land st (Z.lnot 127) <> 0 ->
   decode info = Some (NIH_CHILD_PTRACE, Z.shiftr st 8, false)) /\
  (~ (Z.land st 127 = SIGTRAP /\ Z.land st (Z.lnot 127) <> 0) ->
   decode info = Some (NIH_CHILD_TRAPPED, st, false)) /\
  Z.land st 127 = st mod 128 /\
  (Z.land st (Z.lnot 127) = 0 <-> 0 <= st < 128) /\
  Z.shiftr st 8 = st / 256.
Proof.
  simpl. unfold decode. simpl.
  split; [|split; [|split; [|split]]].
  - intros [H1 H2].
    apply Z.eqb_eq in H1. apply Z.eqb_neq in H2. rewrite H1, H2. reflexivity.
  - intros H.
    destruct (Z.eqb_spec (Z.land st 127) SIGTRAP) as [H1|H1];
      [|reflexivity].
    destruct (Z.eqb_spec (Z.land st (Z.lnot 127)) 0) as [H2|H2];
      [reflexivity|]. exfalso. auto.
  - change 127 with (Z.ones 7). rewrite Z.land_ones by lia. reflexivity.
  - change 127 with (Z.ones 7). rewrite <- Z.ldiff_land.
    rewrite Z.ldiff_ones_r by lia. rewrite Z.shiftl_eq_0_iff by lia.
    rewrite Z.shiftr_div_pow2 by lia. change (2 ^ 7) with 128.
    split; intros H.
    + pose proof (Z.div_mod st 128). pose proof (Z.mod_pos_bound st 128). lia.
    + apply Z.div_small. exact H.
  - rewrite Z.shiftr_div_pow2 by lia. reflexivity.
Qed.

(** C4 as stated fails: the raw status 133 (SIGTRAP with bit 7 set, a
    system-call stop) has the low byte 133, which is not SIGTRAP, and yet
    the event is Ptrace and the status passed on is 0, not 133. *)
Lemma trap_low_byte_counterexample :
  Z.land 133 255 <> SIGTRAP /\
  decode {| si_pid := 42; si_code := CLD_TRAPPED; si_status := 133 |}
  = Some (NIH_CHILD_PTRACE, 0, false).
Proof. split; [vm_compute; discriminate|reflexivity]. Qed.

End ChildClaims.

Section AddClaims.

Lemma timer_init_entries (timers : Timer.Registry) :
  Timer.entries (Timer.nih_timer_init timers) = Timer.entries timers.
Proof. destruct timers; reflexivity. Qed.

Lemma child_init_entries (child_watches : Child.Registry) :
  Child.entries (Child.nih_child_init child_watches)
  = Child.entries child_watches.
Proof. destruct child_watches; reflexivity. Qed.

(** The part the four operations share: the contract holds, and the
    call returns the block, null or not. *)
Ltac add_returns init_entries :=
  let Hb := fresh "Hb" in
  intros _;
  match goal with
  | |- context [?block =? NULL] =>
      destruct (Z.eqb_spec block NULL) as [Hb|Hb]
  end;
  [ eexists; split; [rewrite Hb; reflexivity|]; split; [|tauto];
    intros _; split; [reflexivity|apply init_entries]
  | eexists; split; [reflexivity|]; split; [tauto|]; intros _;
    eexists; simpl; rewrite init_entries; reflexivity ].

(** C9.  Each of the four add operations aborts when its contract is
    violated (null callback or handler, zero pid, period not above zero,
    null schedule) and otherwise returns the block the allocator handed
    out: [NULL] exactly when the allocation failed, and then with the
    entries of the registry as they were; a new entry added to the list
    otherwise. *)
Theorem add_fails_only_on_exhaustion :
  (forall callback data timeout now block timers,
     fails_only_on_exhaustion Timer.entries Timer.nih_timer_init
       (callback = NULL) block timers
       (Timer.nih_timer_add_timeout callback data timeout now block timers))
  /\
  (forall callback data period now block timers,
     fails_only_on_exhaustion Timer.entries Timer.nih_timer_init
       (callback = NULL \/ period <= 0) block timers
       (Timer.nih_timer_add_periodic callback data period now block timers))
  /\
  (forall callback data schedule block timers,
     fails_only_on_exhaustion Timer.entries Timer.nih_timer_init
       (callback = NULL \/ schedule = None) block timers
       (Timer.nih_timer_add_scheduled callback data schedule block timers))
  /\
  (forall parent pid events handler data block child_watches,
     fails_only_on_exhaustion Child.entries Child.nih_child_init
       (pid = 0 \/ handler = NULL) block child_watches
       (Child.nih_child_add_watch parent pid events handler data block
          child_watches)).
Proof.
  unfold fails_only_on_exhaustion.
  split; [|split; [|split]].
  - intros callback data timeout now block timers.
    unfold Timer.nih_timer_add_timeout.
    destruct (Z.eqb_spec callback NULL) as [Hc|Hc];
      [split; [reflexivity|tauto]|].
    split; [tauto|]. add_returns timer_init_entries.
  - intros callback data period now block timers.
    unfold Timer.nih_timer_add_periodic.
    destruct (Z.eqb_spec callback NULL) as [Hc|Hc];
      [split; [reflexivity|tauto]|].
    rewrite Z.gtb_ltb.
    destruct (Z.ltb_spec 0 period) as [Hp|Hp]; simpl;
      [|split; [reflexivity|intros H; exfalso; apply H; right; exact Hp]].
    split; [intros [H|H]; [contradiction|lia]|].
    add_returns timer_init_entries.
  - intros callback data schedule block timers.
    unfold Timer.nih_timer_add_scheduled.
    destruct (Z.eqb_spec callback NULL) as [Hc|Hc];
      [split; [reflexivity|tauto]|].
    destruct schedule as [s|];
      [|split; [reflexivity|intros H; exfalso; apply H; right; reflexivity]].
    split; [intros [H|H]; [contradiction|discriminate]|].
    add_returns timer_init_entries.
  - intros parent pid events handler data block child_watches.
    unfold Child.nih_child_add_watch.
    destruct (Z.eqb_spec pid 0) as [Hp|Hp];
      [split; [reflexivity|tauto]|].
    destruct (Z.eqb_spec handler NULL) as [Hh|Hh];
      [split; [reflexivity|tauto]|].
    split; [tauto|]. add_returns child_init_entries.
Qed.

End AddClaims.

Section ChildPollClaims.
Import Child.

(** C3.  Any sequence of [nih_child_poll] calls against reportable
    transitions returns, and, no block being listed twice: a wildcard
    watch stays in the registry; a watch for one process is gone from
    the registry (no entry at its address) once its handler has been
    invoked for a terminal event, it stays when it has been invoked for
    non-terminal events only, and it is invoked for a terminal event at
    most once. *)
Theorem watch_released_after_terminal_event
    (ks : list Kernel) (child_watches : Registry) (w : NihChildWatch) :
  Forall (fun k => Forall reportable (pending k)) ks ->
  NoDup (map addr (entries child_watches)) ->
  In w (entries child_watches) ->
  exists child_watches' evs,
    poll_sequence ks child_watches
      = Finished (Returned (child_watches', evs)) /\
    (pid w = -1 -> In w (entries child_watches')) /\
    (pid w <> -1 ->
     ((exists p e s, In (EvHandler w p e s) evs /\ terminal e = true) ->
      ~ In (addr w) (map addr (entries child_watches'))) /\
     ((forall p e s, In (EvHandler w p e s) evs -> terminal e = false) ->
      In w (entries child_watches')) /\
     (length (filter (terminal_call_at (addr w)) evs) <= 1)%nat).
Proof.
  intros Hrep N Hw.
  destruct (poll_sequence_returns ks child_watches Hrep)
    as [child_watches' [evs Hrun]].
  exists child_watches', evs. split; [exact Hrun|].
  pose proof (poll_sequence_orderly _ _ _ _ Hrun) as [K [C Once]].
  split.
  - intros Hp. apply K. split; [exact Hw|]. intros [Hp' _]. auto.
  - intros Hp. split; [|split].
    + intros R Hin. apply in_map_iff in Hin. destruct Hin as [w' [Ea Hw']].
      pose proof Hw' as Hk. apply K in Hk. destruct Hk as [Hw'l _].
      assert (w' = w) by (apply (NoDup_map_same addr _ _ _ N); auto).
      subst w'. apply K in Hw'. destruct Hw' as [_ NR]. apply NR.
      split; [exact Hp|exact R].
    + intros Hnon. apply K. split; [exact Hw|].
      intros [_ [p [e [s [Hin Ht]]]]]. apply Hnon in Hin. congruence.
    + apply Once; assumption.
Qed.

Lemma watch_released_after_terminal_event_witness :
  let wild := {| addr := 100; pid := -1; events := 127; handler := 7;
                 data := 0 |} in
  let w := {| addr := 200; pid := 42; events := 9; handler := 8;
              data := 0 |} in
  let k1 := {| pending := [mkInfo 42 CLD_STOPPED 19]; echild := false |} in
  let k2 := {| pending := [mkInfo 42 CLD_EXITED 7]; echild := true |} in
  exists child_watches' evs,
    poll_sequence [k1; k2] (Some [wild; w])
      = Finished (Returned (child_watches', evs)) /\
    (pid w = -1 -> In w (entries child_watches')) /\
    (pid w <> -1 ->
     ((exists p e s, In (EvHandler w p e s) evs /\ terminal e = true) ->
      ~ In (addr w) (map addr (entries child_watches'))) /\
     ((forall p e s, In (EvHandler w p e s) evs -> terminal e = false) ->
      In w (entries child_watches')) /\
     (length (filter (terminal_call_at (addr w)) evs) <= 1)%nat).
Proof.
  apply (watch_released_after_terminal_event
           [ {| pending := [mkInfo 42 CLD_STOPPED 19]; echild := false |};
             {| pending := [mkInfo 42 CLD_EXITED 7]; echild := true |} ]
           (Some [mkWatch 100 (-1) 127 7 0; mkWatch 200 42 9 8 0])).
  - repeat constructor; simpl; try lia; discriminate.
  - simpl. repeat constructor; simpl; intuition lia.
  - simpl. right. left. reflexivity.
Defined.

(** C10.  Take a watch for one process and any sequence of
    [nih_child_poll] calls against reportable transitions in which every
    terminal transition reported for its pid is of a kind outside its
    mask (its process ends with such a transition and reports nothing
    after).  The polls return, the handler of the watch is invoked for no
    terminal event, and the watch is still listed in the end. *)
Theorem unsubscribed_watch_survives_terminal_event
    (ks : list Kernel) (child_watches : Registry) (w : NihChildWatch) :
  Forall (fun k => Forall reportable (pending k)) ks ->
  In w (entries child_watches) ->
  pid w <> -1 ->
  (forall k i e s,
     In k ks -> In i (pending k) -> si_pid i = pid w ->
     decode i = Some (e, s, true) ->
     Z.land (events w) (event_bits e) = 0) ->
  exists child_watches' evs,
    poll_sequence ks child_watches
      = Finished (Returned (child_watches', evs)) /\
    (forall p e s, In (EvHandler w p e s) evs -> terminal e = false) /\
    In w (entries child_watches').
Proof.
  intros Hrep Hw Hp Hmask.
  destruct (poll_sequence_returns ks child_watches Hrep)
    as [child_watches' [evs Hrun]].
  exists child_watches', evs. split; [exact Hrun|].
  pose proof (poll_sequence_orderly _ _ _ _ Hrun) as [K [C _]].
  assert (Hnon : forall p e s,
             In (EvHandler w p e s) evs -> terminal e = false).
  { intros p e s Hin.
    destruct (terminal e) eqn:Et; [exfalso|reflexivity].
    destruct (C _ _ _ _ Hin) as [_ [[Hpid|Hpid] Hland]]; [|contradiction].
    destruct (poll_sequence_calls_pending _ _ _ _ Hrun _ _ _ _ Hin)
      as [k [i [fw [Hk [Hi [Hip D]]]]]].
    pose proof (decode_free_watch _ _ _ _ D) as Hfw.
    rewrite Et in Hfw. subst fw.
    apply Hland. apply (Hmask k i e s); auto. congruence. }
  split; [exact Hnon|].
  apply K. split; [exact Hw|].
  intros [_ [p [e [s [Hin Ht]]]]]. apply Hnon in Hin. congruence.
Qed.

Lemma unsubscribed_watch_survives_terminal_event_witness :
  let w := {| addr := 200; pid := 42; events := 8; handler := 8;
              data := 0 |} in
  let k1 := {| pending := [mkInfo 42 CLD_EXITED 7]; echild := true |} in
  let k2 := {| pending := [mkInfo 43 CLD_KILLED 9]; echild := true |} in
  exists child_watches' evs,
    poll_sequence [k1; k2] (Some [w])
      = Finished (Returned (child_watches', evs)) /\
    (forall p e s, In (EvHandler w p e s) evs -> terminal e = false) /\
    In w (entries child_watches').
Proof.
  apply (unsubscribed_watch_survives_terminal_event
           [ {| pending := [mkInfo 42 CLD_EXITED 7]; echild := true |};
             {| pending := [mkInfo 43 CLD_KILLED 9]; echild := true |} ]
           (Some [mkWatch 200 42 8 8 0])).
  - repeat constructor; simpl; try lia; discriminate.
  - simpl. left. reflexivity.
  - simpl. lia.
  - simpl. intros k i e s [<-|[<-|[]]] [<-|[]] Hpid D; simpl in Hpid;
      try discriminate.
    injection D as <- <-. reflexivity.
Defined.

End ChildPollClaims.

(* ------------------------------------------------------------------ *)
(** ** The two scenarios of the specification, run on the model *)

Section Scenarios.

(** A Timeout of 5 and a Periodic of 10, both registered at time 0:
    the next due time is 5; the poll at 5 fires and removes the Timeout
    and leaves the Periodic due at 10; the poll at 10 fires the Periodic
    and makes it due at 20. *)
Example timeout_and_periodic_scenario :
  let timeout := Timer.mkTimer 100 5 (Timer.NIH_TIMER_TIMEOUT 5) 7 0 in
  let periodic := Timer.mkTimer 200 10 (Timer.NIH_TIMER_PERIODIC 10) 8 0 in
  let registered := Some [timeout; periodic] in
  Timer.nih_timer_add_timeout 7 0 5 0 100 None
    = Returned (100, Some [timeout]) /\
  Timer.nih_timer_add_periodic 8 0 10 0 200 (Some [timeout])
    = Returned (200, registered) /\
  snd (Timer.nih_timer_next_due registered) = Some timeout /\
  Timer.nih_timer_poll 5 registered
    = (Some [periodic], [Timer.invoke timeout]) /\
  Timer.nih_timer_poll 10 (Some [periodic])
    = (Some [Timer.set_due periodic 20], [Timer.invoke periodic]).
Proof. repeat split. Qed.

(** A process exits with status 7; a wildcard watch and a watch for that
    pid, both asking for Exited, are each invoked once with
    [(pid, Exited, 7)]; the watch for the pid is gone afterwards, the
    wildcard watch remains. *)
Example exit_scenario :
  let wild := Child.mkWatch 100 (-1) 1 7 0 in
  let own := Child.mkWatch 200 42 1 8 0 in
  let exited := Child.mkInfo 42 Child.CLD_EXITED 7 in
  Child.nih_child_poll (Child.mkKernel [exited] false) (Some [wild; own])
  = Child.Finished
      (Returned
         (Child.mkKernel [] false, Some [wild],
          [ Child.EvPeek 0 exited;
            Child.EvHandler wild 42 Child.NIH_CHILD_EXITED 7;
            Child.EvHandler own 42 Child.NIH_CHILD_EXITED 7;
            Child.EvReap 42;
            Child.EvPeek 0 Child.zero_info ])).
Proof. reflexivity. Qed.

End Scenarios.

(* ------------------------------------------------------------------ *)
(** ** Further properties of the timer registry *)

Section TimerMoreFacts.
Import Timer.

Lemma filter_none {A : Type} (f : A -> bool) (l : list A) :
  (forall x, In x l -> f x = false) -> filter f l = [].
Proof.
  induction l as [|x rest IH]; simpl; intros H; [reflexivity|].
  rewrite (H x) by (left; reflexivity). apply IH. intros y Hy.
  apply H. right. exact Hy.
Qed.

Lemma filter_all {A : Type} (f : A -> bool) (l : list A) :
  (forall x, In x l -> f x = true) -> filter f l = l.
Proof.
  induction l as [|x rest IH]; simpl; intros H; [reflexivity|].
  rewrite (H x) by (left; reflexivity). f_equal. apply IH. intros y Hy.
  apply H. right. exact Hy.
Qed.

Lemma filter_twice {A : Type} (f g : A -> bool) (l : list A) :
  filter f (filter g l) = filter (fun x => g x && f x) l.
Proof.
  induction l as [|x rest IH]; simpl; [reflexivity|].
  destruct (g x); simpl; [destruct (f x)|]; rewrite IH; reflexivity.
Qed.

Lemma poll_loop_idle (now : time_t) (l : list NihTimer) :
  (forall t, In t l -> now < due t) -> poll_loop now l = (l, []).
Proof.
  induction l as [|t rest IH]; simpl; intros H; [reflexivity|].
  rewrite IH by (intros x Hx; apply H; right; exact Hx).
  rewrite Z.gtb_ltb.
  destruct (Z.ltb_spec now (due t)) as [_|Hge]; [reflexivity|].
  specialize (H t (or_introl eq_refl)). lia.
Qed.

Lemma poll_idle (now : time_t) (timers : Registry) :
  (forall t, In t (entries timers) -> now < due t) ->
  nih_timer_poll now timers = (nih_timer_init timers, []).
Proof.
  intros H. unfold nih_timer_poll.
  assert (E : entries (nih_timer_init timers) = entries timers)
    by (destruct timers; reflexivity).
  rewrite E, (poll_loop_idle now _ H).
  destruct timers; reflexivity.
Qed.

Lemma poll_calls_nil (now : time_t) (timers : Registry) :
  snd (nih_timer_poll now timers) = [] ->
  forall t, In t (entries timers) -> now < due t.
Proof.
  intros H t Ht.
  destruct (Z.ltb_spec now (due t)) as [Hlt|Hge]; [exact Hlt|].
  assert (Hin : In (invoke t) (snd (nih_timer_poll now timers)))
    by (apply poll_fires_iff; auto).
  rewrite H in Hin. destruct Hin.
Qed.

(** The addresses a poll leaves, in order. *)
Lemma polled_addrs (now : time_t) (l : list NihTimer) :
  map addr (flat_map (polled now) l)
  = map addr (filter (fun t => negb (due_timeout now t)) l).
Proof.
  induction l as [|t rest IH]; simpl; [reflexivity|].
  rewrite map_app, IH. unfold polled, due_timeout.
  rewrite Z.gtb_ltb.
  destruct (Z.ltb_spec now (due t)), (Z.leb_spec (due t) now); try lia;
    destruct (kind t); reflexivity.
Qed.

Lemma poll_nodup (now : time_t) (timers : Registry) :
  NoDup (map addr (entries timers)) ->
  NoDup (map addr (entries (fst (nih_timer_poll now timers)))).
Proof.
  intros N. rewrite poll_entries, polled_addrs.
  apply NoDup_map_filter. exact N.
Qed.

Lemma poll_sequence_nodup (times : list time_t) :
  forall timers : Registry,
  NoDup (map addr (entries timers)) ->
  NoDup (map addr (entries (fst (poll_sequence times timers)))).
Proof.
  induction times as [|now later IH]; intros timers N; [exact N|].
  rewrite poll_sequence_cons. simpl. apply IH, poll_nodup, N.
Qed.

Lemma no_call_at_absent (a : ptr) (g : NihTimer -> bool)
    (l : list NihTimer) :
  ~ In a (map addr l) ->
  filter (called_at a) (map invoke (filter g l)) = [].
Proof.
  intros H. apply filter_none. intros c Hc.
  apply in_map_iff in Hc. destruct Hc as [t [<- Ht]].
  apply filter_In in Ht. destruct Ht as [Ht _].
  unfold called_at. simpl. apply Z.eqb_neq. intros E. apply H.
  rewrite <- E. apply in_map. exact Ht.
Qed.

(** Among the calls for the timers of a list that pass [g], those for a
    listed timer: one if it passes, none if not. *)
Lemma calls_at_listed (g : NihTimer -> bool) (l : list NihTimer)
    (t : NihTimer) :
  NoDup (map addr l) -> In t l ->
  filter (called_at (addr t)) (map invoke (filter g l))
  = if g t then [invoke t] else [].
Proof.
  induction l as [|x rest IH]; simpl; intros N Ht; [contradiction|].
  inversion N as [|? ? Hx N']; subst.
  destruct Ht as [->|Ht].
  - destruct (g t); simpl.
    + unfold called_at at 1. simpl. rewrite Z.eqb_refl.
      rewrite (no_call_at_absent _ g rest Hx). reflexivity.
    + apply (no_call_at_absent _ g rest Hx).
  - assert (Hne : addr x <> addr t).
    { intros E. apply Hx. rewrite E. apply in_map. exact Ht. }
    destruct (g x); simpl; [|apply IH; assumption].
    unfold called_at at 1. simpl.
    destruct (Z.eqb_spec (addr x) (addr t)); [contradiction|].
    apply IH; assumption.
Qed.

Lemma no_call_at_absent_sequence (a : ptr) (times : list time_t) :
  forall timers : Registry,
  ~ In a (map addr (entries timers)) ->
  filter (called_at a) (snd (poll_sequence times timers)) = [].
Proof.
  induction times as [|now later IH]; intros timers H; [reflexivity|].
  rewrite poll_sequence_cons. simpl. rewrite filter_app, poll_calls.
  rewrite (no_call_at_absent a _ _ H). simpl. apply IH.
  intros Hin. apply H. rewrite poll_entries in Hin.
  apply (flat_map_polled_addr now). exact Hin.
Qed.

End TimerMoreFacts.

Section TimerMoreClaims.
Import Timer.

(** X1.  The timer [nih_timer_next_due] returns bounds the sleep of the
    event loop: a poll invokes no callback exactly when it comes before
    that timer is due, and such a poll leaves the registry as it is;
    when there is no timer, a poll at any time does nothing. *)
Theorem poll_idle_until_next_due (timers : Registry) (now : time_t) :
  match snd (nih_timer_next_due timers) with
  | None => nih_timer_poll now timers = (nih_timer_init timers, [])
  | Some next =>
      (snd (nih_timer_poll now timers) = [] <-> now < due next) /\
      (now < due next ->
       nih_timer_poll now timers = (nih_timer_init timers, []))
  end.
Proof.
  destruct (next_due_scan timers) as [_ [Hnone Hsome]].
  destruct (entries timers) as [|t0 rest] eqn:E.
  - rewrite (Hnone eq_refl). apply poll_idle. rewrite E. intros t [].
  - destruct Hsome as [b [next [a [El [-> [Hb Ha]]]]]]; [discriminate|].
    assert (Hin : In next (entries timers)).
    { rewrite E, El. apply in_or_app. right. left. reflexivity. }
    assert (Hmin : forall x, In x (entries timers) -> due next <= due x).
    { intros x Hx. rewrite E, El in Hx. apply in_app_or in Hx.
      destruct Hx as [Hx|[<-|Hx]];
        [apply Hb in Hx; lia | lia | apply Ha in Hx; lia]. }
    assert (Hidle : now < due next ->
                    nih_timer_poll now timers = (nih_timer_init timers, [])).
    { intros Hlt. apply poll_idle. intros x Hx. apply Hmin in Hx. lia. }
    split; [|exact Hidle]. split.
    + intros Hnil. apply (poll_calls_nil now timers Hnil next Hin).
    + intros Hlt. rewrite (Hidle Hlt). reflexivity.
Qed.

(** X2.  When every period is above zero and can be added to [now]
    without overflow, a poll at time [now] leaves no Timeout and no
    Periodic timer due at [now]: only Scheduled timers are still due, and
    a second poll at the same time invokes the callbacks of Scheduled
    timers only. *)
Theorem poll_leaves_only_scheduled_due (timers : Registry) (now : time_t) :
  Forall period_positive (entries timers) ->
  Forall (period_fits now) (entries timers) ->
  (forall t, In t (entries (fst (nih_timer_poll now timers))) ->
     due t <= now -> is_scheduled t = true) /\
  (forall c,
     In c (snd (nih_timer_poll now (fst (nih_timer_poll now timers)))) ->
     is_scheduled (c_timer c) = true).
Proof.
  intros Hpos Hfit.
  assert (H : forall t, In t (entries (fst (nih_timer_poll now timers))) ->
                due t <= now -> is_scheduled t = true).
  { intros t Ht Hdue. rewrite poll_entries in Ht.
    apply in_flat_map in Ht. destruct Ht as [t0 [Ht0 Ht]].
    rewrite Forall_forall in Hpos, Hfit.
    specialize (Hpos t0 Ht0). specialize (Hfit t0 Ht0).
    unfold polled in Ht. rewrite Z.gtb_ltb in Ht.
    destruct (Z.ltb_spec now (due t0)) as [Hlt|Hge].
    - destruct Ht as [<-|[]]. lia.
    - unfold is_scheduled. destruct (kind t0) as [d|p|s] eqn:K.
      + destruct Ht.
      + destruct Ht as [<-|[]]. simpl in Hdue.
        rewrite (time_add_fits _ _ (Hfit p K)) in Hdue.
        specialize (Hpos p K). lia.
      + destruct Ht as [<-|[]]. simpl. rewrite K. reflexivity. }
  split; [exact H|].
  intros c Hc. rewrite poll_calls in Hc. apply in_map_iff in Hc.
  destruct Hc as [t [<- Ht]]. apply filter_In in Ht.
  destruct Ht as [Ht Hdue]. apply Z.leb_le in Hdue. simpl. auto.
Qed.

Lemma poll_leaves_only_scheduled_due_witness :
  let timers :=
    Some [ mkTimer 100 5 (NIH_TIMER_TIMEOUT 5) 7 0;
           mkTimer 200 10 (NIH_TIMER_PERIODIC 10) 8 0;
           mkTimer 300 0 (NIH_TIMER_SCHEDULED (Schedule 0)) 9 0 ] in
  (forall t, In t (entries (fst (nih_timer_poll 12 timers))) ->
     due t <= 12 -> is_scheduled t = true) /\
  (forall c,
     In c (snd (nih_timer_poll 12 (fst (nih_timer_poll 12 timers)))) ->
     is_scheduled (c_timer c) = true).
Proof.
  apply (poll_leaves_only_scheduled_due
           (Some [ mkTimer 100 5 (NIH_TIMER_TIMEOUT 5) 7 0;
                   mkTimer 200 10 (NIH_TIMER_PERIODIC 10) 8 0;
                   mkTimer 300 0 (NIH_TIMER_SCHEDULED (Schedule 0)) 9 0 ])
           12).
  - simpl. repeat constructor; intros p H; simpl in H;
      try discriminate; injection H as <-; lia.
  - rewrite Forall_forall. simpl.
    intros t [<-|[<-|[<-|[]]]] p H; simpl in H; try discriminate.
    injection H as <-. unfold fits_time, TIME_MIN, TIME_MAX. lia.
Defined.

(** X3.  Over any sequence of polls, no block being listed twice, the
    callback of a listed Timeout is invoked exactly once if some poll
    comes at or after its due time, with the timer as it was
    registered, and not at all otherwise. *)
Theorem timeout_fires_exactly_once (times : list time_t) :
  forall (timers : Registry) (t : NihTimer) (d : time_t),
  NoDup (map addr (entries timers)) ->
  In t (entries timers) ->
  kind t = NIH_TIMER_TIMEOUT d ->
  filter (called_at (addr t)) (snd (poll_sequence times timers))
  = if existsb (fun now => due t <=? now) times then [invoke t] else [].
Proof.
  induction times as [|now later IH]; intros timers t d N Ht K;
    [reflexivity|].
  rewrite poll_sequence_cons. simpl. rewrite filter_app, poll_calls.
  rewrite (calls_at_listed _ _ t N Ht).
  destruct (Z.leb_spec (due t) now) as [Hdue|Hnot]; simpl.
  - rewrite no_call_at_absent_sequence; [reflexivity|].
    rewrite poll_entries, polled_addrs. intros Hin.
    apply in_map_iff in Hin. destruct Hin as [x [E Hx]].
    apply filter_In in Hx. destruct Hx as [Hx Hkeep].
    assert (x = t) by (apply (NoDup_map_same addr _ _ _ N); auto).
    subst x. unfold due_timeout in Hkeep. rewrite K in Hkeep.
    apply negb_true_iff, Z.leb_gt in Hkeep. lia.
  - apply (IH _ t d); [apply poll_nodup; exact N| |exact K].
    apply (in_entries_polled now timers t t Ht).
    unfold polled. rewrite Z.gtb_ltb.
    destruct (Z.ltb_spec now (due t)); [left; reflexivity|lia].
Qed.

Lemma timeout_fires_exactly_once_witness :
  let t := mkTimer 100 5 (NIH_TIMER_TIMEOUT 5) 7 0 in
  let timers := Some [mkTimer 200 10 (NIH_TIMER_PERIODIC 10) 8 0; t] in
  filter (called_at (addr t)) (snd (poll_sequence [3; 6; 20] timers))
  = if existsb (fun now => due t <=? now) [3; 6; 20]
    then [invoke t] else [].
Proof.
  apply (timeout_fires_exactly_once [3; 6; 20]
           (Some [mkTimer 200 10 (NIH_TIMER_PERIODIC 10) 8 0;
                  mkTimer 100 5 (NIH_TIMER_TIMEOUT 5) 7 0])
           (mkTimer 100 5 (NIH_TIMER_TIMEOUT 5) 7 0) 5).
  - simpl. repeat constructor; simpl; intuition lia.
  - simpl. right. left. reflexivity.
  - reflexivity.
Defined.

(** X4.  No block being listed twice and [now1 + p] not overflowing
    [time_t], a poll at [now1] that finds a Periodic timer of period [p]
    due invokes its callback once, and no poll before [now1 + p] invokes
    it again. *)
Theorem periodic_not_refired_within_period
    (timers : Registry) (t : NihTimer) (p now1 now2 : time_t) :
  NoDup (map addr (entries timers)) ->
  In t (entries timers) ->
  kind t = NIH_TIMER_PERIODIC p ->
  due t <= now1 ->
  fits_time (now1 + p) ->
  now2 < now1 + p ->
  filter (called_at (addr t)) (snd (nih_timer_poll now1 timers))
  = [invoke t] /\
  filter (called_at (addr t))
         (snd (nih_timer_poll now2 (fst (nih_timer_poll now1 timers))))
  = [].
Proof.
  intros N Ht K Hdue Hfit Hsoon. split.
  - rewrite poll_calls, (calls_at_listed _ _ t N Ht).
    destruct (Z.leb_spec (due t) now1); [reflexivity|lia].
  - assert (Ht' : In (set_due t (now1 + p))
                     (entries (fst (nih_timer_poll now1 timers)))).
    { apply (in_entries_polled now1 timers t _ Ht).
      unfold polled. rewrite Z.gtb_ltb, K, (time_add_fits _ _ Hfit).
      destruct (Z.ltb_spec now1 (due t)); [lia|]. left. reflexivity. }
    rewrite poll_calls.
    change (addr t) with (addr (set_due t (now1 + p))).
    rewrite (calls_at_listed _ _ _ (poll_nodup now1 timers N) Ht').
    simpl. destruct (Z.leb_spec (now1 + p) now2); [lia|reflexivity].
Qed.

Lemma periodic_not_refired_within_period_witness :
  let t := mkTimer 200 10 (NIH_TIMER_PERIODIC 10) 8 0 in
  let timers := Some [mkTimer 100 5 (NIH_TIMER_TIMEOUT 5) 7 0; t] in
  filter (called_at (addr t)) (snd (nih_timer_poll 13 timers))
  = [invoke t] /\
  filter (called_at (addr t))
         (snd (nih_timer_poll 22 (fst (nih_timer_poll 13 timers))))
  = [].
Proof.
  apply (periodic_not_refired_within_period
           (Some [mkTimer 100 5 (NIH_TIMER_TIMEOUT 5) 7 0;
                  mkTimer 200 10 (NIH_TIMER_PERIODIC 10) 8 0])
           (mkTimer 200 10 (NIH_TIMER_PERIODIC 10) 8 0) 10 13 22).
  - simpl. repeat constructor; simpl; intuition lia.
  - simpl. right. left. reflexivity.
  - reflexivity.
  - simpl. lia.
  - unfold fits_time, TIME_MIN, TIME_MAX. lia.
  - lia.
Defined.

(** What [nih_timer_next_due] reports is the least due time listed. *)
Lemma reported_least (timers : Registry) (m : time_t) :
  reported timers = Some m <->
  (exists x, In x (entries timers) /\ due x = m) /\
  (forall x, In x (entries timers) -> m <= due x).
Proof.
  unfold reported.
  destruct (next_due_scan timers) as [_ [Hnone Hsome]].
  destruct (entries timers) as [|t0 rest] eqn:E.
  - rewrite (Hnone eq_refl). simpl. split; [discriminate|].
    intros [[x [[] _]] _].
  - destruct Hsome as [b [next [a [El [-> [Hb Ha]]]]]]; [discriminate|].
    simpl.
    assert (Hin : In next (t0 :: rest)).
    { rewrite El. apply in_or_app. right. left. reflexivity. }
    assert (Hmin : forall x, In x (t0 :: rest) -> due next <= due x).
    { intros x Hx. rewrite El in Hx. apply in_app_or in Hx.
      destruct Hx as [Hx|[<-|Hx]];
        [apply Hb in Hx; lia | lia | apply Ha in Hx; lia]. }
    split.
    + intros H. injection H as <-. split; [exists next; auto|exact Hmin].
    + intros [[x [Hx <-]] Hle]. f_equal.
      apply Hmin in Hx. apply Hle in Hin. lia.
Qed.

Lemma reported_none (timers : Registry) :
  reported timers = None <-> entries timers = [].
Proof.
  unfold reported.
  destruct (next_due_scan timers) as [_ [Hnone Hsome]].
  destruct (entries timers) as [|t0 rest] eqn:E.
  - rewrite (Hnone eq_refl). simpl. tauto.
  - destruct Hsome as [b [next [a [El [-> _]]]]]; [discriminate|].
    simpl. split; discriminate.
Qed.

(** Linking one more timer makes the report the earlier of what it was
    and the due time of the new timer. *)
Lemma reported_after_add (timers timers' : Registry) (t : NihTimer) :
  entries timers' = nih_list_add (entries timers) t ->
  reported timers' = Some (earlier_of (reported timers) (due t)).
Proof.
  intros E. apply reported_least. rewrite E. unfold nih_list_add.
  destruct (reported timers) as [m|] eqn:R; simpl.
  - apply reported_least in R. destruct R as [[x [Hx Hm]] Hle]. split.
    + destruct (Z.min_spec m (due t)) as [[_ ->]|[_ ->]].
      * exists x. split; [apply in_or_app; left; exact Hx|exact Hm].
      * exists t. split; [apply in_or_app; right; left|]; reflexivity.
    + intros y Hy. apply in_app_or in Hy.
      destruct Hy as [Hy|[<-|[]]]; [apply Hle in Hy|]; lia.
  - apply reported_none in R. rewrite R. simpl. split.
    + exists t. split; [left|]; reflexivity.
    + intros y [<-|[]]. lia.
Qed.

(** X5.  After a timer has been added, what [nih_timer_next_due] reports
    is the earlier of what it reported before and the due time of the new
    timer: the time of the call plus the timeout, or plus the period,
    when that sum does not overflow [time_t], or 0 for a Scheduled
    timer. *)
Theorem next_due_after_add :
  (forall callback data timeout now block timers timers',
     nih_timer_add_timeout callback data timeout now block timers
       = Returned (block, timers') ->
     block <> NULL ->
     fits_time (now + timeout) ->
     reported timers' = Some (earlier_of (reported timers) (now + timeout)))
  /\
  (forall callback data period now block timers timers',
     nih_timer_add_periodic callback data period now block timers
       = Returned (block, timers') ->
     block <> NULL ->
     fits_time (now + period) ->
     reported timers' = Some (earlier_of (reported timers) (now + period)))
  /\
  (forall callback data schedule block timers timers',
     nih_timer_add_scheduled callback data schedule block timers
       = Returned (block, timers') ->
     block <> NULL ->
     reported timers' = Some (earlier_of (reported timers) 0)).
Proof.
  split; [|split].
  - intros callback data timeout now block timers timers' H Hb Hfit.
    unfold nih_timer_add_timeout in H.
    rewrite (time_add_fits _ _ Hfit) in H.
    destruct (callback =? NULL); [discriminate|].
    destruct (Z.eqb_spec block NULL) as [|_]; [contradiction|].
    injection H as <-.
    apply (reported_after_add timers _
             (mkTimer block (now + timeout) (NIH_TIMER_TIMEOUT timeout)
                      callback data)).
    simpl. destruct timers; reflexivity.
  - intros callback data period now block timers timers' H Hb Hfit.
    unfold nih_timer_add_periodic in H.
    rewrite (time_add_fits _ _ Hfit) in H.
    destruct (callback =? NULL); [discriminate|].
    destruct (negb (period >? 0)); [discriminate|].
    destruct (Z.eqb_spec block NULL) as [|_]; [contradiction|].
    injection H as <-.
    apply (reported_after_add timers _
             (mkTimer block (now + period) (NIH_TIMER_PERIODIC period)
                      callback data)).
    simpl. destruct timers; reflexivity.
  - intros callback data schedule block timers timers' H Hb.
    unfold nih_timer_add_scheduled in H.
    destruct (callback =? NULL); [discriminate|].
    destruct schedule as [s|]; [|discriminate].
    destruct (Z.eqb_spec block NULL) as [|_]; [contradiction|].
    injection H as <-.
    apply (reported_after_add timers _
             (mkTimer block 0 (NIH_TIMER_SCHEDULED s) callback data)).
    simpl. destruct timers; reflexivity.
Qed.

Lemma add_keeps_distinct (timers timers' : Registry) (t : NihTimer) :
  NoDup (map addr (entries timers)) ->
  ~ In (addr t) (map addr (entries timers)) ->
  entries timers' = nih_list_add (entries timers) t ->
  NoDup (map addr (entries timers')).
Proof.
  intros N F E. rewrite E. unfold nih_list_add. rewrite map_app. simpl.
  apply NoDup_app; [exact N|repeat constructor; intros []|].
  intros a Ha [<-|[]]. exact (F Ha).
Qed.

(** X6.  Starting from a registry in which no block is listed twice, none
    is after a poll or any sequence of polls, nor after an add operation
    as long as the allocator hands out a block that is not listed. *)
Theorem timer_addresses_stay_distinct (timers : Registry) :
  NoDup (map addr (entries timers)) ->
  (forall times,
     NoDup (map addr (entries (fst (poll_sequence times timers))))) /\
  (forall callback data timeout now block p timers',
     ~ In block (map addr (entries timers)) ->
     nih_timer_add_timeout callback data timeout now block timers
       = Returned (p, timers') ->
     NoDup (map addr (entries timers'))) /\
  (forall callback data period now block p timers',
     ~ In block (map addr (entries timers)) ->
     nih_timer_add_periodic callback data period now block timers
       = Returned (p, timers') ->
     NoDup (map addr (entries timers'))) /\
  (forall callback data schedule block p timers',
     ~ In block (map addr (entries timers)) ->
     nih_timer_add_scheduled callback data schedule block timers
       = Returned (p, timers') ->
     NoDup (map addr (entries timers'))).
Proof.
  intros N.
  assert (Einit : entries (nih_timer_init timers) = entries timers)
    by (destruct timers; reflexivity).
  split; [|split; [|split]].
  - intros times. apply poll_sequence_nodup, N.
  - intros callback data timeout now block p timers' F H.
    unfold nih_timer_add_timeout in H.
    destruct (callback =? NULL); [discriminate|].
    destruct (block =? NULL); injection H as <- <-.
    + rewrite Einit. exact N.
    + apply (add_keeps_distinct timers _
               (mkTimer block (time_add now timeout)
                        (NIH_TIMER_TIMEOUT timeout) callback data) N F).
      simpl. rewrite Einit. reflexivity.
  - intros callback data period now block p timers' F H.
    unfold nih_timer_add_periodic in H.
    destruct (callback =? NULL); [discriminate|].
    destruct (negb (period >? 0)); [discriminate|].
    destruct (block =? NULL); injection H as <- <-.
    + rewrite Einit. exact N.
    + apply (add_keeps_distinct timers _
               (mkTimer block (time_add now period)
                        (NIH_TIMER_PERIODIC period) callback data) N F).
      simpl. rewrite Einit. reflexivity.
  - intros callback data schedule block p timers' F H.
    unfold nih_timer_add_scheduled in H.
    destruct (callback =? NULL); [discriminate|].
    destruct schedule as [s|]; [|discriminate].
    destruct (block =? NULL); injection H as <- <-.
    + rewrite Einit. exact N.
    + apply (add_keeps_distinct timers _
               (mkTimer block 0 (NIH_TIMER_SCHEDULED s) callback data) N F).
      simpl. rewrite Einit. reflexivity.
Qed.

Lemma timer_addresses_stay_distinct_witness :
  let timers := Some [ mkTimer 100 5 (NIH_TIMER_TIMEOUT 5) 7 0;
                       mkTimer 200 10 (NIH_TIMER_PERIODIC 10) 8 0 ] in
  (forall times,
     NoDup (map addr (entries (fst (poll_sequence times timers))))) /\
  (forall callback data timeout now block p timers',
     ~ In block (map addr (entries timers)) ->
     nih_timer_add_timeout callback data timeout now block timers
       = Returned (p, timers') ->
     NoDup (map addr (entries timers'))) /\
  (forall callback data period now block p timers',
     ~ In block (map addr (entries timers)) ->
     nih_timer_add_periodic callback data period now block timers
       = Returned (p, timers') ->
     NoDup (map addr (entries timers'))) /\
  (forall callback data schedule block p timers',
     ~ In block (map addr (entries timers)) ->
     nih_timer_add_scheduled callback data schedule block timers
       = Returned (p, timers') ->
     NoDup (map addr (entries timers'))).
Proof.
  apply (timer_addresses_stay_distinct
           (Some [ mkTimer 100 5 (NIH_TIMER_TIMEOUT 5) 7 0;
                   mkTimer 200 10 (NIH_TIMER_PERIODIC 10) 8 0 ])).
  simpl. repeat constructor; simpl; intuition lia.
Defined.

(** X7.  A poll at time [now] unlinks the Timeouts that are due and
    nothing else, keeps the timers that stay in their order, and changes
    nothing of a timer but its due time, and that only if the timer was
    due. *)
Theorem poll_drops_only_due_timeouts (timers : Registry) (now : time_t) :
  map addr (entries (fst (nih_timer_poll now timers)))
  = map addr (filter (fun t => negb (due_timeout now t)) (entries timers)) /\
  (forall t', In t' (entries (fst (nih_timer_poll now timers))) ->
     exists t, In t (entries timers) /\
       t' = set_due t (due t') /\
       (now < due t -> t' = t)).
Proof.
  rewrite poll_entries. split; [apply polled_addrs|].
  intros t' Ht'. apply in_flat_map in Ht'. destruct Ht' as [t [Ht Hp]].
  exists t. split; [exact Ht|].
  unfold polled in Hp. rewrite Z.gtb_ltb in Hp.
  destruct (Z.ltb_spec now (due t)) as [Hlt|Hge].
  - destruct Hp as [<-|[]]. rewrite set_due_same. auto.
  - destruct (kind t); simpl in Hp;
      [contradiction | destruct Hp as [<-|[]] | destruct Hp as [<-|[]]];
      (split; [reflexivity|lia]).
Qed.

End TimerMoreClaims.

(* ------------------------------------------------------------------ *)
(** ** Further properties of the child watch registry *)

Section ChildMoreFacts.
Import Child.

Lemma no_handler_at_absent (a : ptr) (p : pid_t) (e : NihChildEvents)
    (s : Z) (l : list NihChildWatch) :
  ~ In a (map addr l) ->
  filter (handler_at a) (map (fun w => EvHandler w p e s) l) = [].
Proof.
  intros H. apply filter_none. intros ev Hev.
  apply in_map_iff in Hev. destruct Hev as [w [<- Hw]]. simpl.
  apply Z.eqb_neq. intros E. apply H. rewrite <- E. apply in_map. exact Hw.
Qed.

Lemma handlers_at_listed (g : NihChildWatch -> bool) (p : pid_t)
    (e : NihChildEvents) (s : Z) (l : list NihChildWatch)
    (w : NihChildWatch) :
  NoDup (map addr l) -> In w l ->
  filter (handler_at (addr w))
         (map (fun w => EvHandler w p e s) (filter g l))
  = if g w then [EvHandler w p e s] else [].
Proof.
  induction l as [|x rest IH]; simpl; intros N Hw; [contradiction|].
  inversion N as [|? ? Hx N']; subst.
  assert (Hrest : ~ In (addr x) (map addr (filter g rest))).
  { intros Hin. apply Hx. apply in_map_iff in Hin.
    destruct Hin as [y [E Hy]]. apply filter_In in Hy.
    rewrite <- E. apply in_map. tauto. }
  destruct Hw as [->|Hw].
  - destruct (g w); simpl.
    + rewrite Z.eqb_refl, (no_handler_at_absent _ p e s _ Hrest).
      reflexivity.
    + apply (no_handler_at_absent _ p e s _ Hrest).
  - assert (Hne : addr x <> addr w).
    { intros E. apply Hx. rewrite E. apply in_map. exact Hw. }
    destruct (g x); simpl; [|apply IH; assumption].
    destruct (Z.eqb_spec (addr x) (addr w)); [contradiction|].
    apply IH; assumption.
Qed.

Lemma handlers_at_round (a : ptr) (i : siginfo_t) (hs : list Event) :
  filter (handler_at a) (round_events i hs) = filter (handler_at a) hs.
Proof.
  unfold round_events. simpl. rewrite filter_app. simpl.
  apply app_nil_r.
Qed.

(** The watches one turn of the loop leaves. *)
Lemma dispatch_entries_releases (i : siginfo_t) (e : NihChildEvents)
    (s : Z) (fw : bool) (l : list NihChildWatch) :
  decode i = Some (e, s, fw) ->
  fst (dispatch (si_pid i) e s fw l)
  = filter (fun w => negb (releases w i)) l.
Proof.
  intros D. rewrite dispatch_entries. apply filter_ext. intros w.
  unfold releases. rewrite D. reflexivity.
Qed.

(** The handler calls one turn of the loop makes for a listed watch. *)
Lemma dispatch_events_notification (i : siginfo_t) (e : NihChildEvents)
    (s : Z) (fw : bool) (l : list NihChildWatch) (w : NihChildWatch) :
  decode i = Some (e, s, fw) ->
  NoDup (map addr l) -> In w l ->
  filter (handler_at (addr w)) (snd (dispatch (si_pid i) e s fw l))
  = notification w i.
Proof.
  intros D N Hw. rewrite dispatch_events.
  rewrite (handlers_at_listed _ _ _ _ _ _ N Hw).
  unfold notification. rewrite D. reflexivity.
Qed.

Lemma drains_no_handler_at (a : ptr) (q : list siginfo_t)
    (l : list NihChildWatch) (evs : list Event) (q' : list siginfo_t)
    (l' : list NihChildWatch) :
  drains q l evs q' l' -> ~ In a (map addr l) ->
  filter (handler_at a) evs = [].
Proof.
  intros Dr H. apply drains_orderly in Dr. destruct Dr as [_ [C _]].
  apply filter_none. intros ev Hev.
  destruct ev as [ret info|w p e s|p]; simpl; try reflexivity.
  apply Z.eqb_neq. intros E. apply H. rewrite <- E. apply in_map.
  apply (C _ _ _ _ Hev).
Qed.

(** A watch is in the list a draining run leaves exactly when none of
    the transitions released it. *)
Lemma drains_final_list (q : list siginfo_t) (l : list NihChildWatch)
    (evs : list Event) (q' : list siginfo_t) (l' : list NihChildWatch) :
  drains q l evs q' l' -> q' = [] ->
  l' = filter (fun w => negb (existsb (releases w) q)) l.
Proof.
  induction 1 as [l ret|i q l Hz|i q l e s fw evs q' l' Hnz D Dr IH];
    intros Hq.
  - symmetry. apply filter_all. reflexivity.
  - discriminate.
  - rewrite (IH Hq), (dispatch_entries_releases i e s fw l D), filter_twice.
    apply filter_ext. intros w. simpl. rewrite negb_orb. reflexivity.
Qed.

(** The handler calls a draining run makes for a listed watch: one for
    each transition the watch asks for, in order, until it is
    released. *)
Lemma drains_deliveries (q : list siginfo_t) (l : list NihChildWatch)
    (evs : list Event) (q' : list siginfo_t) (l' : list NihChildWatch) :
  drains q l evs q' l' -> q' = [] ->
  NoDup (map addr l) ->
  forall w, In w l ->
  filter (handler_at (addr w)) evs
  = flat_map (notification w) (until_released w q).
Proof.
  induction 1 as [l ret|i q l Hz|i q l e s fw evs q' l' Hnz D Dr IH];
    intros Hq N w Hw.
  - reflexivity.
  - discriminate.
  - rewrite filter_app, handlers_at_round.
    rewrite (dispatch_events_notification i e s fw l w D N Hw).
    assert (N1 : NoDup (map addr (fst (dispatch (si_pid i) e s fw l)))).
    { rewrite dispatch_entries. apply NoDup_map_filter. exact N. }
    simpl. destruct (releases w i) eqn:R.
    + simpl. rewrite app_nil_r. rewrite <- (app_nil_r (notification w i)) at 2.
      f_equal. apply (drains_no_handler_at _ _ _ _ _ _ Dr).
      rewrite (dispatch_entries_releases i e s fw l D).
      intros Hin. apply in_map_iff in Hin. destruct Hin as [x [E Hx]].
      apply filter_In in Hx. destruct Hx as [Hx Hkeep].
      assert (x = w) by (apply (NoDup_map_same addr _ _ _ N); auto).
      subst x. rewrite R in Hkeep. discriminate.
    + simpl. f_equal. apply (IH Hq N1).
      rewrite (dispatch_entries_releases i e s fw l D).
      apply filter_In. split; [exact Hw|]. rewrite R. reflexivity.
Qed.

Lemma until_released_wildcard (w : NihChildWatch) (q : list siginfo_t) :
  pid w = -1 -> until_released w q = q /\ existsb (releases w) q = false.
Proof.
  intros Hp.
  assert (R : forall i, releases w i = false).
  { intros i. unfold releases. destruct (decode i) as [[[e s] fw]|];
      [|reflexivity].
    rewrite Hp. simpl. rewrite !andb_false_r. reflexivity. }
  induction q as [|i q [IH1 IH2]]; simpl; [auto|].
  rewrite R, IH1, IH2. auto.
Qed.

(** A poll against reportable transitions is a run that drains them. *)
Lemma poll_drains (k : Kernel) (child_watches : Registry) :
  Forall reportable (pending k) ->
  exists l' evs,
    nih_child_poll k child_watches
    = Finished (Returned ({| pending := []; echild := echild k |},
                          Some l', evs)) /\
    drains (pending k) (entries child_watches) evs [] l'.
Proof.
  intros Hrep.
  destruct (poll_returns k child_watches Hrep) as [l' [evs E]].
  exists l', evs. split; [exact E|].
  apply poll_returned in E. destruct E as [Dr _]. exact Dr.
Qed.

End ChildMoreFacts.

Section ChildTurnClaims.
Import Child.

Lemma notifications_dispatch (i : siginfo_t) (e : NihChildEvents) (s : Z)
    (fw : bool) (l : list NihChildWatch) :
  decode i = Some (e, s, fw) ->
  flat_map (fun w => notification w i) l
  = map (fun w => EvHandler w (si_pid i) e s)
        (filter (interestedb (si_pid i) e) l).
Proof.
  intros D. induction l as [|w rest IH]; simpl; [reflexivity|].
  rewrite IH. unfold notification at 1. rewrite D.
  destruct (interestedb (si_pid i) e w); reflexivity.
Qed.

(** The loop on reportable transitions, turn by turn. *)
Lemma poll_loop_turns (q : list siginfo_t) :
  forall (fuel : nat) (ech : bool) (l : list NihChildWatch),
  (length q < fuel)%nat ->
  Forall reportable q ->
  poll_loop fuel {| pending := q; echild := ech |} l
  = Finished
      (Returned
         ({| pending := []; echild := ech |},
          filter (fun w => negb (existsb (releases w) q)) l,
          turns q l ++ [EvPeek (if ech then -1 else 0) zero_info])).
Proof.
  induction q as [|i q IH]; intros fuel ech l Hlen Hrep;
    (destruct fuel as [|fuel]; [simpl in Hlen; lia|]).
  - simpl. unfold waitid_peek. simpl.
    rewrite (filter_all _ l) by reflexivity.
    destruct ech; reflexivity.
  - inversion Hrep as [|? ? [Hpid Hdec] Hrest]; subst.
    simpl. unfold waitid_peek. simpl.
    destruct (Z.eqb_spec (si_pid i) 0) as [|_]; [contradiction|].
    destruct (decode i) as [[[e s] fw]|] eqn:D; [|congruence].
    pose proof (dispatch_entries_releases i e s fw l D) as E1.
    pose proof (dispatch_events (si_pid i) e s fw l) as E2.
    destruct (dispatch (si_pid i) e s fw l) as [l1 evs1].
    simpl in E1, E2. subst l1 evs1.
    unfold waitid_reap. simpl. rewrite Z.eqb_refl.
    rewrite IH; [|simpl in Hlen; lia|exact Hrest]. simpl.
    rewrite filter_twice, (notifications_dispatch i e s fw l D).
    unfold round_events. simpl. rewrite <- !app_assoc. simpl.
    rewrite (filter_ext
               (fun w => negb (releases w i) && negb (existsb (releases w) q))
               (fun w => negb (releases w i || existsb (releases w) q)))
      by (intros w; rewrite negb_orb; reflexivity).
    reflexivity.
Qed.

(** C5.  Against a kernel whose pending transitions are all reportable,
    [nih_child_poll] returns, with nothing left pending, and what it did
    is exactly this: for each pending transition in order, the peek that
    detects it, then one handler call for every watch that is listed at
    that moment and asks for it, in list order, each with the pid, event
    and status decoded from what was peeked, then one reap of that pid;
    and in the end one peek that finds nothing.  A watch is listed at a
    transition unless an earlier transition released it. *)
Theorem reap_once_after_handlers (k : Kernel) (child_watches : Registry) :
  Forall reportable (pending k) ->
  nih_child_poll k child_watches
  = Finished
      (Returned
         ({| pending := []; echild := echild k |},
          Some (filter (fun w => negb (existsb (releases w) (pending k)))
                       (entries child_watches)),
          turns (pending k) (entries child_watches)
          ++ [EvPeek (if echild k then -1 else 0) zero_info])).
Proof.
  intros Hrep. unfold nih_child_poll.
  assert (E : entries (nih_child_init child_watches) = entries child_watches)
    by (destruct child_watches; reflexivity).
  rewrite E. destruct k as [q ech]. cbn [pending echild] in *.
  rewrite (poll_loop_turns q (S (length q)) ech _ (Nat.lt_succ_diag_r _) Hrep).
  reflexivity.
Qed.

Lemma reap_once_after_handlers_witness :
  let exited := {| si_pid := 42; si_code := CLD_EXITED; si_status := 7 |} in
  let stopped := {| si_pid := 43; si_code := CLD_STOPPED; si_status := 19 |} in
  let k := {| pending := [exited; stopped]; echild := false |} in
  let child_watches :=
    Some [ {| addr := 100; pid := -1; events := 127; handler := 7; data := 0 |};
           {| addr := 200; pid := 42; events := 1; handler := 8; data := 0 |} ] in
  nih_child_poll k child_watches
  = Finished
      (Returned
         ({| pending := []; echild := echild k |},
          Some (filter (fun w => negb (existsb (releases w) (pending k)))
                       (entries child_watches)),
          turns (pending k) (entries child_watches)
          ++ [EvPeek (if echild k then -1 else 0) zero_info])).
Proof.
  apply (reap_once_after_handlers
           {| pending := [mkInfo 42 CLD_EXITED 7; mkInfo 43 CLD_STOPPED 19];
              echild := false |}).
  simpl. repeat constructor; simpl; try lia; discriminate.
Defined.

End ChildTurnClaims.

Section ChildMoreClaims.
Import Child.

(** X8.  In a poll against reportable transitions, no block being listed
    twice, the handler of a listed watch is invoked once for each pending
    transition the watch asks for, in the order the kernel reports them
    and with what each decodes to, up to and with the first transition
    that releases the watch, and for none after that. *)
Theorem watch_notified_until_released
    (k : Kernel) (child_watches : Registry) (w : NihChildWatch) :
  Forall reportable (pending k) ->
  NoDup (map addr (entries child_watches)) ->
  In w (entries child_watches) ->
  exists k' child_watches' evs,
    nih_child_poll k child_watches
      = Finished (Returned (k', child_watches', evs)) /\
    filter (handler_at (addr w)) evs
    = flat_map (notification w) (until_released w (pending k)).
Proof.
  intros Hrep N Hw.
  destruct (poll_drains k child_watches Hrep) as [l' [evs [E Dr]]].
  exists {| pending := []; echild := echild k |}, (Some l'), evs.
  split; [exact E|].
  apply (drains_deliveries _ _ _ _ _ Dr eq_refl N w Hw).
Qed.

Lemma watch_notified_until_released_witness :
  let w := mkWatch 200 42 9 8 0 in
  let k := {| pending := [ mkInfo 42 CLD_STOPPED 19; mkInfo 43 CLD_EXITED 0;
                           mkInfo 42 CLD_EXITED 7; mkInfo 42 CLD_STOPPED 19 ];
              echild := false |} in
  let child_watches := Some [mkWatch 100 (-1) 127 7 0; w] in
  exists k' child_watches' evs,
    nih_child_poll k child_watches
      = Finished (Returned (k', child_watches', evs)) /\
    filter (handler_at (addr w)) evs
    = flat_map (notification w) (until_released w (pending k)).
Proof.
  apply (watch_notified_until_released
           {| pending := [ mkInfo 42 CLD_STOPPED 19; mkInfo 43 CLD_EXITED 0;
                           mkInfo 42 CLD_EXITED 7; mkInfo 42 CLD_STOPPED 19 ];
              echild := false |}
           (Some [mkWatch 100 (-1) 127 7 0; mkWatch 200 42 9 8 0])).
  - repeat constructor; simpl; try lia; discriminate.
  - simpl. repeat constructor; simpl; intuition lia.
  - simpl. right. left. reflexivity.
Defined.

(** X9.  In a poll against reportable transitions, no block being listed
    twice, the handler of a wildcard watch is invoked once for every
    pending transition whose event is in its mask, whatever the pid, in
    the order the kernel reports them, and the watch is still listed
    afterwards. *)
Theorem wildcard_watch_notified_of_everything
    (k : Kernel) (child_watches : Registry) (w : NihChildWatch) :
  Forall reportable (pending k) ->
  NoDup (map addr (entries child_watches)) ->
  In w (entries child_watches) ->
  pid w = -1 ->
  exists k' child_watches' evs,
    nih_child_poll k child_watches
      = Finished (Returned (k', child_watches', evs)) /\
    filter (handler_at (addr w)) evs
    = flat_map (notification w) (pending k) /\
    In w (entries child_watches').
Proof.
  intros Hrep N Hw Hp.
  destruct (poll_drains k child_watches Hrep) as [l' [evs [E Dr]]].
  exists {| pending := []; echild := echild k |}, (Some l'), evs.
  destruct (until_released_wildcard w (pending k) Hp) as [U R].
  split; [exact E|]. split.
  - rewrite (drains_deliveries _ _ _ _ _ Dr eq_refl N w Hw), U.
    reflexivity.
  - simpl. rewrite (drains_final_list _ _ _ _ _ Dr eq_refl).
    apply filter_In. split; [exact Hw|]. rewrite R. reflexivity.
Qed.

Lemma wildcard_watch_notified_of_everything_witness :
  let w := mkWatch 100 (-1) 3 7 0 in
  let k := {| pending := [ mkInfo 42 CLD_STOPPED 19; mkInfo 43 CLD_EXITED 0;
                           mkInfo 42 CLD_KILLED 9 ];
              echild := true |} in
  let child_watches := Some [w; mkWatch 200 42 9 8 0] in
  exists k' child_watches' evs,
    nih_child_poll k child_watches
      = Finished (Returned (k', child_watches', evs)) /\
    filter (handler_at (addr w)) evs
    = flat_map (notification w) (pending k) /\
    In w (entries child_watches').
Proof.
  apply (wildcard_watch_notified_of_everything
           {| pending := [ mkInfo 42 CLD_STOPPED 19; mkInfo 43 CLD_EXITED 0;
                           mkInfo 42 CLD_KILLED 9 ];
              echild := true |}
           (Some [mkWatch 100 (-1) 3 7 0; mkWatch 200 42 9 8 0])).
  - repeat constructor; simpl; try lia; discriminate.
  - simpl. repeat constructor; simpl; intuition lia.
  - simpl. left. reflexivity.
  - reflexivity.
Defined.

(** X10.  A poll against reportable transitions returns with nothing left
    pending, and the watches it leaves are those it found, in their
    order, less the ones that some pending transition released: it adds
    none, moves none and alters none. *)
Theorem poll_removes_released_watches
    (k : Kernel) (child_watches : Registry) :
  Forall reportable (pending k) ->
  exists evs,
    nih_child_poll k child_watches
    = Finished
        (Returned
           ({| pending := []; echild := echild k |},
            Some (filter (fun w => negb (existsb (releases w) (pending k)))
                         (entries child_watches)),
            evs)).
Proof.
  intros Hrep.
  destruct (poll_drains k child_watches Hrep) as [l' [evs [E Dr]]].
  exists evs. rewrite E.
  rewrite (drains_final_list _ _ _ _ _ Dr eq_refl). reflexivity.
Qed.

Lemma poll_removes_released_watches_witness :
  let k := {| pending := [mkInfo 42 CLD_STOPPED 19; mkInfo 42 CLD_EXITED 7];
              echild := false |} in
  let child_watches :=
    Some [ mkWatch 100 (-1) 127 7 0; mkWatch 200 42 9 8 0;
           mkWatch 300 42 8 9 0 ] in
  exists evs,
    nih_child_poll k child_watches
    = Finished
        (Returned
           ({| pending := []; echild := echild k |},
            Some (filter (fun w => negb (existsb (releases w) (pending k)))
                         (entries child_watches)),
            evs)).
Proof.
  apply (poll_removes_released_watches
           {| pending := [mkInfo 42 CLD_STOPPED 19; mkInfo 42 CLD_EXITED 7];
              echild := false |}).
  repeat constructor; simpl; try lia; discriminate.
Defined.

Lemma notification_nil (w : NihChildWatch) (i : siginfo_t)
    (e : NihChildEvents) (s : Z) (fw : bool) :
  decode i = Some (e, s, fw) -> notification w i = [] ->
  interestedb (si_pid i) e w = false.
Proof.
  unfold notification. intros ->.
  destruct (interestedb (si_pid i) e w); [discriminate|reflexivity].
Qed.

(** A draining run over watches none of which asks for any of the
    transitions: a peek and a reap for each, and the list untouched. *)
Lemma drains_unwatched (q : list siginfo_t) (l : list NihChildWatch)
    (evs : list Event) (q' : list siginfo_t) (l' : list NihChildWatch) :
  drains q l evs q' l' -> q' = [] ->
  (forall i w, In i q -> In w l -> notification w i = []) ->
  l' = l /\
  exists ret,
    evs = flat_map (fun i => [EvPeek 0 i; EvReap (si_pid i)]) q
          ++ [EvPeek ret zero_info].
Proof.
  induction 1 as [l ret|i q l Hz|i q l e s fw evs q' l' Hnz D Dr IH];
    intros Hq Hno.
  - split; [reflexivity|]. exists ret. reflexivity.
  - discriminate.
  - assert (Hi : forall w, In w l -> interestedb (si_pid i) e w = false).
    { intros w Hw. apply (notification_nil w i e s fw D).
      apply Hno; [left; reflexivity|exact Hw]. }
    assert (E1 : fst (dispatch (si_pid i) e s fw l) = l).
    { rewrite dispatch_entries. apply filter_all. intros w Hw.
      rewrite (Hi w Hw). reflexivity. }
    assert (E2 : snd (dispatch (si_pid i) e s fw l) = []).
    { rewrite dispatch_events, (filter_none _ _ Hi). reflexivity. }
    rewrite E1 in IH. rewrite E2.
    destruct (IH Hq) as [-> [ret ->]].
    { intros j w Hj Hw. apply Hno; [right; exact Hj|exact Hw]. }
    split; [reflexivity|]. exists ret. reflexivity.
Qed.

(** X11.  Transitions that no listed watch asks for (none at all when the
    registry is empty) are collected all the same: against reportable
    transitions the poll peeks at and reaps each in turn, invokes no
    handler, leaves the watches as they are and nothing pending. *)
Theorem unwatched_transitions_are_reaped
    (k : Kernel) (child_watches : Registry) :
  Forall reportable (pending k) ->
  (forall i w, In i (pending k) -> In w (entries child_watches) ->
     notification w i = []) ->
  exists ret,
    nih_child_poll k child_watches
    = Finished
        (Returned
           ({| pending := []; echild := echild k |},
            nih_child_init child_watches,
            flat_map (fun i => [EvPeek 0 i; EvReap (si_pid i)]) (pending k)
            ++ [EvPeek ret zero_info])).
Proof.
  intros Hrep Hno.
  destruct (poll_drains k child_watches Hrep) as [l' [evs [E Dr]]].
  destruct (drains_unwatched _ _ _ _ _ Dr eq_refl Hno) as [-> [ret ->]].
  exists ret. rewrite E. destruct child_watches; reflexivity.
Qed.

Lemma unwatched_transitions_are_reaped_witness :
  let k := {| pending := [mkInfo 42 CLD_EXITED 7; mkInfo 43 CLD_STOPPED 19];
              echild := true |} in
  let child_watches := Some [mkWatch 200 44 127 8 0] in
  exists ret,
    nih_child_poll k child_watches
    = Finished
        (Returned
           ({| pending := []; echild := echild k |},
            nih_child_init child_watches,
            flat_map (fun i => [EvPeek 0 i; EvReap (si_pid i)]) (pending k)
            ++ [EvPeek ret zero_info])).
Proof.
  apply (unwatched_transitions_are_reaped
           {| pending := [mkInfo 42 CLD_EXITED 7; mkInfo 43 CLD_STOPPED 19];
              echild := true |}
           (Some [mkWatch 200 44 127 8 0])).
  - repeat constructor; simpl; try lia; discriminate.
  - simpl. intros i w [<-|[<-|[]]] [<-|[]]; reflexivity.
Defined.

Lemma decode_none (i : siginfo_t) :
  decode i = None <-> ~ (CLD_EXITED <= si_code i <= CLD_CONTINUED).
Proof.
  unfold decode, CLD_EXITED, CLD_KILLED, CLD_DUMPED, CLD_TRAPPED,
    CLD_STOPPED, CLD_CONTINUED.
  repeat match goal with
         | |- context [?a =? ?b] => destruct (Z.eqb_spec a b)
         end;
    simpl; split; intros H; try discriminate; try reflexivity;
    try (exfalso; lia); lia.
Qed.

Lemma poll_loop_aborts (bad : siginfo_t) (rest : list siginfo_t)
    (good : list siginfo_t) :
  forall (fuel : nat) (k : Kernel) (l : list NihChildWatch),
  pending k = good ++ bad :: rest ->
  Forall reportable good ->
  si_pid bad <> 0 ->
  decode bad = None ->
  (length (pending k) < fuel)%nat ->
  poll_loop fuel k l = Finished Aborted.
Proof.
  induction good as [|g good IH]; intros fuel k l Hq Hrep Hpid Hdec Hlen;
    (destruct fuel as [|fuel]; [lia|]); simpl; unfold waitid_peek;
    rewrite Hq; simpl.
  - destruct (Z.eqb_spec (si_pid bad) 0) as [|_]; [contradiction|].
    rewrite Hdec. reflexivity.
  - inversion Hrep as [|? ? [Hg Hgd] Hrep']; subst.
    destruct (Z.eqb_spec (si_pid g) 0) as [|_]; [contradiction|].
    destruct (decode g) as [[[e s] fw]|]; [|congruence].
    destruct (dispatch (si_pid g) e s fw l) as [l1 evs1].
    rewrite (IH fuel (waitid_reap (si_pid g) k) l1); try assumption.
    + reflexivity.
    + simpl. rewrite Hq. simpl. rewrite Z.eqb_refl. reflexivity.
    + simpl. rewrite Hq. simpl. rewrite Z.eqb_refl.
      rewrite Hq in Hlen. simpl in Hlen. lia.
Qed.

(** X12.  When the transitions reported before it are reportable, a
    pending transition of a child whose [si_code] is none of the six
    CLD_ codes makes [nih_child_poll] hit [nih_assert_not_reached]: the
    poll aborts instead of returning. *)
Theorem poll_aborts_on_unknown_code
    (k : Kernel) (child_watches : Registry)
    (good : list siginfo_t) (bad : siginfo_t) (rest : list siginfo_t) :
  pending k = good ++ bad :: rest ->
  Forall reportable good ->
  si_pid bad <> 0 ->
  ~ (CLD_EXITED <= si_code bad <= CLD_CONTINUED) ->
  nih_child_poll k child_watches = Finished Aborted.
Proof.
  intros Hq Hrep Hpid Hcode. unfold nih_child_poll.
  rewrite (poll_loop_aborts bad rest good _ k _ Hq Hrep Hpid); auto.
  apply decode_none. exact Hcode.
Qed.

Lemma poll_aborts_on_unknown_code_witness :
  nih_child_poll
    {| pending := [mkInfo 42 CLD_EXITED 7; mkInfo 43 9 0;
                   mkInfo 44 CLD_EXITED 0];
       echild := false |}
    (Some [mkWatch 100 (-1) 127 7 0])
  = Finished Aborted.
Proof.
  apply (poll_aborts_on_unknown_code
           {| pending := [mkInfo 42 CLD_EXITED 7; mkInfo 43 9 0;
                          mkInfo 44 CLD_EXITED 0];
              echild := false |}
           (Some [mkWatch 100 (-1) 127 7 0])
           [mkInfo 42 CLD_EXITED 7] (mkInfo 43 9 0) [mkInfo 44 CLD_EXITED 0]).
  - reflexivity.
  - repeat constructor; simpl; try lia; discriminate.
  - simpl. lia.
  - unfold CLD_EXITED, CLD_CONTINUED. simpl. lia.
Defined.

(** The three bit operations of the trap test, as arithmetic. *)
Lemma trap_bits (st : Z) :
  Z.land st 127 = st mod 128 /\
  (Z.land st (Z.lnot 127) = 0 <-> 0 <= st < 128) /\
  Z.shiftr st 8 = st / 256.
Proof.
  split; [|split].
  - change 127 with (Z.ones 7). rewrite Z.land_ones by lia. reflexivity.
  - change 127 with (Z.ones 7). rewrite <- Z.ldiff_land.
    rewrite Z.ldiff_ones_r by lia. rewrite Z.shiftl_eq_0_iff by lia.
    rewrite Z.shiftr_div_pow2 by lia. change (2 ^ 7) with 128.
    split; intros H.
    + pose proof (Z.div_mod st 128). pose proof (Z.mod_pos_bound st 128). lia.
    + apply Z.div_small. exact H.
  - rewrite Z.shiftr_div_pow2 by lia. reflexivity.
Qed.

Lemma decode_trapped (p : pid_t) (st : Z) :
  decode {| si_pid := p; si_code := CLD_TRAPPED; si_status := st |}
  = if (Z.land st 127 =? SIGTRAP) && negb (Z.land st (Z.lnot 127) =? 0)
    then Some (NIH_CHILD_PTRACE, Z.shiftr st 8, false)
    else Some (NIH_CHILD_TRAPPED, st, false).
Proof. reflexivity. Qed.

(** X13.  A CLD_TRAPPED transition is passed on as a Ptrace event with
    status [s] exactly when its raw status is [256 * s + SIGTRAP] with
    [s] not zero, or [256 * s + 128 + SIGTRAP]: the status handed to the
    handler is the raw status less its low byte, and of that byte only
    bit 7 is not known to the handler. *)
Theorem ptrace_status_is_raw_status_above_low_byte (p : pid_t) (st s : Z) :
  decode {| si_pid := p; si_code := CLD_TRAPPED; si_status := st |}
  = Some (NIH_CHILD_PTRACE, s, false)
  <-> (st = 256 * s + SIGTRAP /\ s <> 0) \/ st = 256 * s + 128 + SIGTRAP.
Proof.
  rewrite decode_trapped.
  destruct (trap_bits st) as [B1 [B2 B3]]. rewrite B1, B3.
  unfold SIGTRAP.
  destruct (Z.eqb_spec (st mod 128) 5) as [H1|H1];
    destruct (Z.eqb_spec (Z.land st (Z.lnot 127)) 0) as [H2|H2];
    cbn [andb negb].
  - apply B2 in H2. split; [discriminate|].
    intros [[-> Hs]| ->]; lia.
  - assert (H3 : ~ 0 <= st < 128) by (intros H; apply H2, B2, H).
    split.
    + intros H. injection H as <-. clear B1 B2 B3 H2.
      Z.div_mod_to_equations. lia.
    + intros [[-> Hs]| ->]; f_equal; f_equal; f_equal.
      * symmetry. apply (Z.div_unique _ _ _ 5); lia.
      * symmetry. apply (Z.div_unique _ _ _ 133); lia.
  - split; [discriminate|]. intros [[-> Hs]| ->]; exfalso; apply H1.
    + symmetry. apply (Z.mod_unique _ _ (2 * s) 5); lia.
    + symmetry. apply (Z.mod_unique _ _ (2 * s + 1) 5); lia.
  - split; [discriminate|]. intros [[-> Hs]| ->]; exfalso; apply H1.
    + symmetry. apply (Z.mod_unique _ _ (2 * s) 5); lia.
    + symmetry. apply (Z.mod_unique _ _ (2 * s + 1) 5); lia.
Qed.

(** X14.  A watch that [nih_child_add_watch] has registered, at a block
    not listed before, is served by the next poll: against reportable
    transitions its handler is invoked once for each pending transition
    it asks for, in order, up to and with the first that releases it,
    and it is still listed afterwards exactly when none released it. *)
Theorem added_watch_is_notified
    (parent : ptr) (p : pid_t) (mask : Z) (handler data block : ptr)
    (child_watches child_watches1 : Registry) (k : Kernel) :
  nih_child_add_watch parent p mask handler data block child_watches
    = Returned (block, child_watches1) ->
  block <> NULL ->
  NoDup (map addr (entries child_watches)) ->
  ~ In block (map addr (entries child_watches)) ->
  Forall reportable (pending k) ->
  let w := {| addr := block; pid := p; events := mask;
              handler := handler; data := data |} in
  exists k' child_watches2 evs,
    nih_child_poll k child_watches1
      = Finished (Returned (k', child_watches2, evs)) /\
    filter (handler_at block) evs
    = flat_map (notification w) (until_released w (pending k)) /\
    (In w (entries child_watches2)
     <-> existsb (releases w) (pending k) = false).
Proof.
  intros Hadd Hb N F Hrep w.
  assert (E1 : entries child_watches1 = entries child_watches ++ [w]).
  { unfold nih_child_add_watch in Hadd.
    destruct (p =? 0); [discriminate|].
    destruct (handler =? NULL); [discriminate|].
    destruct (Z.eqb_spec block NULL) as [|_]; [contradiction|].
    injection Hadd as <-. simpl. unfold nih_list_add.
    destruct child_watches; reflexivity. }
  assert (N1 : NoDup (map addr (entries child_watches1))).
  { rewrite E1, map_app. simpl.
    apply NoDup_app; [exact N|repeat constructor; intros []|].
    intros a Ha [<-|[]]. exact (F Ha). }
  assert (Hw : In w (entries child_watches1)).
  { rewrite E1. apply in_or_app. right. left. reflexivity. }
  destruct (poll_drains k child_watches1 Hrep) as [l' [evs [E Dr]]].
  exists {| pending := []; echild := echild k |}, (Some l'), evs.
  split; [exact E|]. split.
  - apply (drains_deliveries _ _ _ _ _ Dr eq_refl N1 w Hw).
  - simpl. rewrite (drains_final_list _ _ _ _ _ Dr eq_refl), filter_In.
    rewrite negb_true_iff. tauto.
Qed.

Lemma added_watch_is_notified_witness :
  let w := mkWatch 200 42 9 8 0 in
  let k := {| pending := [mkInfo 42 CLD_STOPPED 19; mkInfo 42 CLD_EXITED 7];
              echild := false |} in
  exists k' child_watches2 evs,
    nih_child_poll k (Some [mkWatch 100 (-1) 127 7 0; w])
      = Finished (Returned (k', child_watches2, evs)) /\
    filter (handler_at 200) evs
    = flat_map (notification w) (until_released w (pending k)) /\
    (In w (entries child_watches2)
     <-> existsb (releases w) (pending k) = false).
Proof.
  apply (added_watch_is_notified 0 42 9 8 0 200
           (Some [mkWatch 100 (-1) 127 7 0])
           (Some [mkWatch 100 (-1) 127 7 0; mkWatch 200 42 9 8 0])
           {| pending := [mkInfo 42 CLD_STOPPED 19; mkInfo 42 CLD_EXITED 7];
              echild := false |}).
  - reflexivity.
  - unfold NULL. lia.
  - simpl. repeat constructor; simpl; intuition lia.
  - simpl. intros [H|[]]. lia.
  - repeat constructor; simpl; try lia; discriminate.
Defined.

End ChildMoreClaims.

Section Overflow.

(** A timeout too long for [time_t]: registered at time 1 with the
    largest timeout there is, the sum wraps to the smallest time, and the
    timer is due at once. *)
Example timeout_overflow_wraps :
  let timer := Timer.mkTimer 100 TIME_MIN (Timer.NIH_TIMER_TIMEOUT TIME_MAX)
                             7 0 in
  Timer.nih_timer_add_timeout 7 0 TIME_MAX 1 100 None
    = Returned (100, Some [timer]) /\
  Timer.nih_timer_poll 2 (Some [timer]) = (Some [], [Timer.invoke timer]).
Proof. split; reflexivity. Qed.

End Overflow.
